(** * The alpha-beta smoothing filter of [actors/util/smoothing]

    A shallow embedding of [alpha_beta_filter.go]: the Q.128 fixed-point
    position/velocity estimator, the extrapolated cumulative sum of the ratio
    of two estimates, and the rational approximation of the natural
    logarithm it relies on.

    Go's arbitrary-precision integers are Rocq's [Z].  Pointers to
    [FilterEstimate] are locations of an explicit store; a call threads the
    store and may panic. *)

From Stdlib Require Import ZArith Lia List Bool.
From stdpp Require Import base list.

Local Open Scope Z_scope.

(** ** Panics and the store-passing monad *)

Inductive panic : Type :=
| DivisionByZero
| NilDereference
| IndexOutOfRange
| LenOutOfRange.

Inductive result (A : Type) : Type :=
| Ok (a : A)
| Panic (p : panic).

Arguments Ok {A} a.
Arguments Panic {A} p.

Definition rbind {A B : Type} (r : result A) (k : A -> result B) : result B :=
  match r with
  | Ok a => k a
  | Panic p => Panic p
  end.

Notation "'let?' x ':=' r 'in' k" := (rbind r (fun x => k))
  (at level 10, x name, r at level 100, k at level 200).

(** ** [math/big] as wrapped by [actors/abi/big] *)

Module big.

(** Modelled from the spec: the wrappers of [actors/abi/big] around Go's
    [math/big], which are not part of the sources at hand.  The spec asks
    for "an arbitrary-precision integer type" whose point-shift helpers
    [Lsh] and [Rsh] move the binary point; they are the total functions of
    [math/big]: [Lsh] multiplies by a power of two, [Rsh] is the arithmetic
    shift (rounding towards minus infinity), [Div] is Euclidean division
    and panics on a zero divisor. *)
Definition Zero : Z := 0.

Definition NewInt (i : Z) : Z := i.

Definition Mul (a b : Z) : Z := a * b.

Definition Add (a b : Z) : Z := a + b.

Definition Sum (a b : Z) : Z := a + b.

Definition Sub (a b : Z) : Z := a - b.

Definition Lsh (a : Z) (n : Z) : Z := Z.shiftl a n.

(** What [math/big] does when the shift count is not a small constant: the
    shifted value of a number other than 0 takes [n / 8] bytes and more, and
    from [n = 2^63] on no platform can allocate them: the runtime panics
    with [makeslice: len out of range].  Zero is shifted without an
    allocation.  Below that count the shift is taken to fit in memory, and
    [Lsh] is its value. *)
Definition maxShift : Z := 2 ^ 63.

Definition LshAlloc (a : Z) (n : Z) : result Z :=
  if negb (a =? 0) && (maxShift <=? n)
  then Panic LenOutOfRange
  else Ok (Lsh a n).

Definition Rsh (a : Z) (n : Z) : Z := Z.shiftr a n.

Definition Div (a b : Z) : result Z :=
  if b =? 0 then Panic DivisionByZero
  else Ok (Z.sgn b * (a / Z.abs b)).

Definition GreaterThan (a b : Z) : bool := a >? b.

(** [BitLen] is the length of the absolute value in bits, 0 for 0. *)
Definition BitLen (a : Z) : Z :=
  if a =? 0 then 0 else Z.log2 (Z.abs a) + 1.

End big.

(** ** [actors/util/math] *)

Module math.

(** Modelled from the spec: the constant [Precision] of
    [actors/util/math], the number of fractional bits of the Q.128
    format, "an integer representation where the value equals the integer
    divided by 2^128". *)
Definition Precision : Z := 128.

(** Modelled from the spec: [Polyval] of [actors/util/math], which is not
    part of the sources at hand: a polynomial with Q.128 coefficients,
    highest order first, "evaluated by Horner's method", where
    "multiplying two Q128 values yields a Q256 intermediate that must be
    right-shifted by 128 bits before being treated as Q128 again".
    Indexing the first coefficient of an empty slice panics. *)
Definition horner (x : Z) (res c : Z) : Z :=
  big.Add (big.Rsh (big.Mul res x) Precision) c.

Definition Polyval (p : list Z) (x : Z) : result Z :=
  match p with
  | [] => Panic IndexOutOfRange
  | c0 :: cs => Ok (fold_left (horner x) cs c0)
  end.

End math.

(** ** Machine integers

    Go's [uint] has the width of the platform.  [uint] is the conversion of
    a 64-bit build, [uint32] that of a 32-bit build; [int64] is the two's
    complement reading of the low 64 bits, on both. *)

Definition uint (n : Z) : Z := n mod 2 ^ 64.

Definition uint32 (n : Z) : Z := n mod 2 ^ 32.

Definition int64 (n : Z) : Z := (n + 2 ^ 63) mod 2 ^ 64 - 2 ^ 63.

(** ** Protocol constants, as loaded by [init] *)

Definition lnNumCoef : list Z :=
  [ 261417938209272870992496419296200268025;
    7266615505142943436908456158054846846897;
    32458783941900493142649393804518050491988;
    17078670566130897220338060387082146864806;
    -35150353308172866634071793531642638290419;
    -20351202052858059355702509232125230498980;
    -1563932590352680681114104005183375350999 ].

Definition lnDenomCoef : list Z :=
  [ 49928077726659937662124949977867279384;
    2508163877009111928787629628566491583994;
    21757751789594546643737445330202599887121;
    53400635271583923415775576342898617051826;
    41248834748603606604000911015235164348839;
    9015227820322455780436733526367238305537;
    340282366920938463463374607431768211456 ].

Definition DefaultAlpha : Z := 55806300000000000000000000000000000.
Definition DefaultBeta : Z := 39132500000000000000000000000000000.
Definition ExtrapolatedCumSumRatioEpsilon : Z := 302231454903657293676544.
Definition ln2 : Z := 235865763225513294137944142764154484399.

Definition initialPosition : Z := big.Zero.
Definition initialVelocity : Z := big.Zero.

(** ** Estimates, the store and the filter

    A [big.Int] field is taken to hold a number: the zero value of the
    wrapper, with no [math/big] integer inside, is left out, and so is a
    filter that is itself a nil pointer. *)

Record FilterEstimate : Type := mkEstimate {
  PositionEstimate : Z;
  VelocityEstimate : Z
}.

Definition loc : Type := nat.

Definition store : Type := list FilterEstimate.

(** A computation runs on a store and leaves a store, also when it panics. *)
Definition M (A : Type) : Type := store -> result A * store.

Definition ret {A : Type} (a : A) : M A := fun h => (Ok a, h).

Definition bind {A B : Type} (m : M A) (k : A -> M B) : M B :=
  fun h =>
    match m h with
    | (Ok a, h') => k a h'
    | (Panic p, h') => (Panic p, h')
    end.

Definition lift {A : Type} (r : result A) : M A := fun h => (r, h).

Notation "'let!' x ':=' m 'in' k" := (bind m (fun x => k))
  (at level 10, x name, m at level 100, k at level 200).

(** Reading through a pointer; a pointer to no estimate is nil. *)
Definition deref (l : loc) : M FilterEstimate :=
  fun h =>
    match h !! l with
    | Some e => (Ok e, h)
    | None => (Panic NilDereference, h)
    end.

(** [&FilterEstimate{...}]: a new cell, at an address not in use. *)
Definition alloc (e : FilterEstimate) : M loc :=
  fun h => (Ok (length h), h ++ [e]).

Record AlphaBetaFilter : Type := mkFilter {
  prevEstimate : loc;
  alpha : Z;
  beta : Z
}.

Definition Estimate (fe : loc) : M Z :=
  let! e := deref fe in
  ret (big.Rsh (PositionEstimate e) math.Precision).

Definition InitialEstimate : M loc :=
  alloc {| PositionEstimate := initialPosition;
           VelocityEstimate := initialVelocity |}.

Definition LoadFilter (prev : loc) (a b : Z) : AlphaBetaFilter :=
  {| prevEstimate := prev; alpha := a; beta := b |}.

Definition NextEstimate (f : AlphaBetaFilter) (observation : Z)
    (epochDelta : Z) : M loc :=
  let! prev := deref (prevEstimate f) in
  let deltaT := big.Lsh (big.NewInt epochDelta) math.Precision in
  let deltaX := big.Mul deltaT (VelocityEstimate prev) in
  let deltaX := big.Rsh deltaX math.Precision in
  let position := big.Sum (PositionEstimate prev) deltaX in
  let observation := big.Lsh observation math.Precision in
  let residual := big.Sub observation position in
  let revisionX := big.Mul (alpha f) residual in
  let revisionX := big.Rsh revisionX math.Precision in
  let position := big.Sum position revisionX in
  let revisionV := big.Mul (beta f) residual in
  let! revisionV := lift (big.Div revisionV deltaT) in
  let velocity := big.Sum (VelocityEstimate prev) revisionV in
  alloc {| PositionEstimate := position; VelocityEstimate := velocity |}.

(** The natural log of [x] in Q.128, for [1 <= x <= 2]. *)
Definition lnBetweenOneAndTwo (x : Z) : result Z :=
  let? num := math.Polyval lnNumCoef x in
  let? denom := math.Polyval lnDenomCoef x in
  let num := big.Lsh num math.Precision in
  big.Div num denom.

(** The natural log of Q.128 [z], on a platform whose conversion to [uint]
    is [toUint].  The shift count of the two branches is a variable: the
    left shift is the one that can fail to allocate. *)
Definition lnWith (toUint : Z -> Z) (z : Z) : result Z :=
  let intK := toUint (big.BitLen z - 1 - math.Precision) in
  let k := big.NewInt (int64 intK) in
  let k := big.Lsh k math.Precision in
  let? x := if big.GreaterThan k big.Zero
            then Ok (big.Rsh z intK)
            else big.LshAlloc z intK in
  let lnz := big.Mul k ln2 in
  let lnz := big.Rsh lnz math.Precision in
  let? r := lnBetweenOneAndTwo x in
  Ok (big.Sum lnz r).

(** [ln] on a 64-bit build, the one the rest of the development follows,
    and on a 32-bit build. *)
Definition ln (z : Z) : result Z := lnWith uint z.

Definition ln32 (z : Z) : result Z := lnWith uint32 z.

Definition ExtrapolatedCumSumOfRatio (delta relativeStart : Z)
    (estimateNum estimateDenom : loc) : M Z :=
  let deltaT := big.Lsh (big.NewInt delta) math.Precision in
  let t0 := big.Lsh (big.NewInt relativeStart) math.Precision in
  let! num := deref estimateNum in
  let position1 := PositionEstimate num in
  let! denom := deref estimateDenom in
  let position2 := PositionEstimate denom in
  let velocity1 := VelocityEstimate num in
  let velocity2 := VelocityEstimate denom in
  let squaredVelocity2 := big.Mul velocity2 velocity2 in
  let squaredVelocity2 := big.Rsh squaredVelocity2 math.Precision in
  if big.GreaterThan squaredVelocity2 ExtrapolatedCumSumRatioEpsilon then
    let x2a := big.Mul t0 velocity2 in
    let x2a := big.Rsh x2a math.Precision in
    let x2a := big.Sum position2 x2a in
    let x2b := big.Mul deltaT velocity2 in
    let x2b := big.Rsh x2b math.Precision in
    let x2b := big.Sum x2a x2b in
    let! x2a := lift (ln x2a) in
    let! x2b := lift (ln x2b) in
    let m1 := big.Sub x2b x2a in
    let m1 := big.Mul velocity2 (big.Mul position1 m1) in
    let m1 := big.Rsh m1 (math.Precision * 2) in
    let m2L := big.Sub x2a x2b in
    let m2L := big.Mul position2 m2L in
    let m2R := big.Mul velocity2 deltaT in
    let m2 := big.Sum m2L m2R in
    let m2 := big.Mul velocity1 m2 in
    let m2 := big.Rsh m2 (math.Precision * 2) in
    lift (big.Div (big.Sum m1 m2) squaredVelocity2)
  else
    let halfDeltaT := big.Div deltaT (big.NewInt 2) in
    let! halfDeltaT := lift halfDeltaT in
    let x1m := big.Mul velocity1 (big.Sum t0 halfDeltaT) in
    let x1m := big.Rsh x1m math.Precision in
    let x1m := big.Add position1 x1m in
    let cumsumRatio := big.Mul x1m deltaT in
    let! cumsumRatio := lift (big.Div cumsumRatio position2) in
    ret (big.Rsh cumsumRatio math.Precision).

(** ** The behaviour the specification words describe

    Written with plain integer arithmetic: a Q.0 value enters Q.128 by a
    multiplication by [2^128], a Q.256 product returns to Q.128 by a
    division by [2^128] rounding down. *)

Definition toQ128 (n : Z) : Z := n * 2 ^ 128.

Definition rescale (x : Z) : Z := x / 2 ^ 128.

Definition extrapolated (prev : FilterEstimate) (epochDelta : Z) : Z :=
  PositionEstimate prev + rescale (toQ128 epochDelta * VelocityEstimate prev).

Definition residual (prev : FilterEstimate) (observation epochDelta : Z) : Z :=
  toQ128 observation - extrapolated prev epochDelta.

Definition revised (a b : Z) (prev : FilterEstimate)
    (observation epochDelta : Z) : FilterEstimate :=
  {| PositionEstimate :=
       extrapolated prev epochDelta
       + rescale (a * residual prev observation epochDelta);
     VelocityEstimate :=
       VelocityEstimate prev
       + rescale (b * residual prev observation epochDelta) / epochDelta |}.

(** The linear trajectory of an estimate, [position + t * velocity], in
    Q.128 at the integer time [t]. *)
Definition trajectory (e : FilterEstimate) (t : Z) : Z :=
  PositionEstimate e + rescale (toQ128 t * VelocityEstimate e).

Definition squaredVelocity (e : FilterEstimate) : Z :=
  rescale (VelocityEstimate e * VelocityEstimate e).

(** The closed form, with the logarithm of the denominator's trajectory at
    the two ends of the interval. *)
Definition closedForm (delta relativeStart : Z)
    (num denom : FilterEstimate) : result Z :=
  let? lnA := ln (trajectory denom relativeStart) in
  let? lnB := ln (trajectory denom (relativeStart + delta)) in
  let m1 :=
    VelocityEstimate denom * (PositionEstimate num * (lnB - lnA)) / 2 ^ 256 in
  let m2 :=
    VelocityEstimate num
    * (PositionEstimate denom * (lnA - lnB)
       + VelocityEstimate denom * toQ128 delta) / 2 ^ 256 in
  big.Div (m1 + m2) (squaredVelocity denom).

(** The middle of the interval, in Q.128. *)
Definition midpoint (delta relativeStart : Z) : Z :=
  toQ128 relativeStart + toQ128 delta / 2.

(** The first-order approximation: the numerator at the middle of the
    interval, times the length of the interval, over the denominator's
    position. *)
Definition midpointRule (delta relativeStart : Z)
    (num denom : FilterEstimate) : result Z :=
  let x1m :=
    PositionEstimate num
    + rescale (VelocityEstimate num * midpoint delta relativeStart) in
  let? ratio := big.Div (x1m * toQ128 delta) (PositionEstimate denom) in
  Ok (rescale ratio).

Definition cumSumOfRatio (delta relativeStart : Z)
    (num denom : FilterEstimate) : result Z :=
  if squaredVelocity denom >? ExtrapolatedCumSumRatioEpsilon
  then closedForm delta relativeStart num denom
  else midpointRule delta relativeStart num denom.

(** ** The logarithm: exponent, mantissa and Horner evaluation *)

(** The exponent and the mantissa of [z]: [z] lies between
    [mantissa * 2^exponent] and [(mantissa + 1) * 2^exponent]. *)
Definition lnExponent (z : Z) : Z := Z.log2 z - 128.

Definition lnMantissa (z : Z) : Z := z / 2 ^ lnExponent z.

(** The shift count of [ln] and the argument it hands to
    [lnBetweenOneAndTwo], when the shift can be done. *)
Definition lnShift (z : Z) : Z := uint (big.BitLen z - 1 - math.Precision).

Definition lnArg (z : Z) : result Z :=
  if int64 (lnShift z) * 2 ^ 128 >? 0
  then Ok (z / 2 ^ lnShift z)
  else big.LshAlloc z (lnShift z).

(** The arguments on which the shift of [ln] is one that can be done: zero,
    and the numbers of magnitude at least one. *)
Definition lnShiftFits (z : Z) : Prop := z = 0 \/ 2 ^ 128 <= Z.abs z.

(** [BitLen] returns an [int]: an integer whose length does not fit one is
    not a value the program can hold. *)
Definition representable (z : Z) : Prop := big.BitLen z < 2 ^ 63.

(** The Horner loop of [Polyval], from the accumulator [r] on. *)
Definition evalPoly (x : Z) (cs : list Z) (r : Z) : Z :=
  fold_left (math.horner x) cs r.

(** The values of the two polynomials of [lnBetweenOneAndTwo]. *)
Definition lnNum (x : Z) : Z := evalPoly x (tl lnNumCoef) (hd 0 lnNumCoef).

Definition lnDenom (x : Z) : Z :=
  evalPoly x (tl lnDenomCoef) (hd 0 lnDenomCoef).

(** The value of [lnBetweenOneAndTwo] where the denominator is positive. *)
Definition lnValue (x : Z) : Z := lnNum x * 2 ^ 128 / lnDenom x.

(** ** Interval evaluation of the Horner loop

    An interval is a pair of bounds.  [hornerI] bounds one step of the loop
    over an interval of arguments; a jet carries in addition bounds on the
    increase of the accumulator from [x] to [x + 1]. *)

Definition inI (v : Z) (i : Z * Z) : Prop := fst i <= v <= snd i.

Definition imul (r x : Z * Z) : Z * Z :=
  let a := fst r in
  let b := snd r in
  let c := fst x in
  let d := snd x in
  (Z.min (Z.min (a * c) (a * d)) (Z.min (b * c) (b * d)),
   Z.max (Z.max (a * c) (a * d)) (Z.max (b * c) (b * d))).

Definition hornerI (x : Z * Z) (r : Z * Z) (c : Z) : Z * Z :=
  let p := imul r x in
  (fst p / 2 ^ 128 + c, snd p / 2 ^ 128 + c).

Definition evalPolyI (x : Z * Z) (cs : list Z) (r : Z * Z) : Z * Z :=
  fold_left (hornerI x) cs r.

Record jet : Type := mkJet {
  val : Z * Z;
  dif : Z * Z
}.

Definition hornerJ (x : Z * Z) (j : jet) (c : Z) : jet :=
  let p := imul (dif j) (fst x + 1, snd x + 1) in
  {| val := hornerI x (val j) c;
     dif := ((fst (val j) + fst p) / 2 ^ 128,
             (snd (val j) + snd p) / 2 ^ 128 + 1) |}.

Definition evalPolyJ (x : Z * Z) (cs : list Z) (c0 : Z) : jet :=
  fold_left (hornerJ x) cs {| val := (c0, c0); dif := (0, 0) |}.

(** The polynomial with coefficients [c0 :: cs] is negative on [xl, xh]:
    checked on the interval, or else on its two halves. *)
Fixpoint negativeOn (fuel : nat) (c0 : Z) (cs : list Z) (xl xh : Z) : bool :=
  (snd (evalPolyI (xl, xh) cs (c0, c0)) <? 0)
  || match fuel with
     | O => false
     | S n =>
         let m := (xl + xh) / 2 in
         negativeOn n c0 cs xl m && negativeOn n c0 cs m xh
     end.

(** The quotient of the numerator by the denominator does not decrease from
    [x] to [x + 1] when both lie in [xl, xh]: a test on the jets of the two
    polynomials. *)
Definition quotientCheck (n d : jet) : bool :=
  (0 <? fst (val d))
  && (0 <=? fst (dif n))
  && (0 <=? fst (dif d))
  && (Z.max (snd (val n)) 0 * snd (dif d) <=? fst (dif n) * fst (val d)).

Definition quotientStep (xl xh : Z) : bool :=
  quotientCheck
    (evalPolyJ (xl, xh) (tl lnNumCoef) (hd 0 lnNumCoef))
    (evalPolyJ (xl, xh) (tl lnDenomCoef) (hd 0 lnDenomCoef)).

(** A test of consecutive arguments in [xl, xh]: on the whole interval, or
    else on its two halves. *)
Fixpoint bisect (check : Z -> Z -> bool) (fuel : nat) (xl xh : Z) : bool :=
  check xl xh
  || match fuel with
     | O => false
     | S n =>
         let m := (xl + xh) / 2 in
         bisect check n xl m && bisect check n m xh
     end.

Definition quotientMonotoneOn (fuel : nat) (xl xh : Z) : bool :=
  bisect quotientStep fuel xl xh.

(** A store with one estimate, position 5 and velocity 3/2, and a filter
    on it with the default gains. *)
Definition exampleStore : store :=
  [ {| PositionEstimate := 5 * 2 ^ 128; VelocityEstimate := 3 * 2 ^ 127 |} ].

Definition exampleFilter : AlphaBetaFilter :=
  LoadFilter 0%nat DefaultAlpha DefaultBeta.

(** ** A helper of the miner tests: [fixedHasher]

    Bytes are integers from 0 to 255, a [uint64] is an integer below
    [2^64]. *)

(** [binary.Write(&buf, binary.BigEndian, target)] for a [uint64]: its eight
    bytes, the most significant first. *)
Definition bigEndianUint64 (target : Z) : list Z :=
  map (fun i => Z.land (Z.shiftr target (8 * (7 - i))) 255)
      [0; 1; 2; 3; 4; 5; 6; 7].

(** Go's built-in [copy]: it copies as many elements as the shorter of the
    two slices has, to the front of the destination. *)
Definition copy (dst src : list Z) : list Z :=
  let n := Nat.min (length dst) (length src) in
  take n src ++ drop n dst.

Definition fixedHasher (target : Z) (input : list Z) : list Z :=
  let buf := bigEndianUint64 target in
  let digest := replicate 32 0 in
  copy digest buf.

(** The unsigned integer a sequence of bytes denotes, the most significant
    byte first. *)
Definition readBigEndian (bytes : list Z) : Z :=
  fold_left (fun acc b => acc * 256 + b) bytes 0.

(** What a caller can observe of a call that returns a pointer: the estimate
    it points to, or the panic. *)
Definition observe (r : result loc * store) : result (option FilterEstimate) :=
  match r with
  | (Ok l, h) => Ok (h !! l)
  | (Panic p, _) => Panic p
  end.

(** * Properties *)

(** ** The fixed-point helpers *)

Lemma Rsh_Precision (a : Z) : big.Rsh a math.Precision = a / 2 ^ 128.
Proof. unfold big.Rsh, math.Precision. apply Z.shiftr_div_pow2. lia. Qed.

Lemma Lsh_Precision (a : Z) : big.Lsh a math.Precision = a * 2 ^ 128.
Proof. unfold big.Lsh, math.Precision. apply Z.shiftl_mul_pow2. lia. Qed.

Lemma Rsh_Lsh (a k : Z) : 0 <= k -> big.Rsh (big.Lsh a k) k = a.
Proof.
  intros Hk. unfold big.Rsh, big.Lsh.
  rewrite Z.shiftr_shiftl_l by lia.
  rewrite Z.sub_diag. apply Z.shiftl_0_r.
Qed.

Lemma Div_pos (a b : Z) : 0 < b -> big.Div a b = Ok (a / b).
Proof.
  intros Hb. unfold big.Div.
  destruct (Z.eqb_spec b 0) as [->|_]; [lia|].
  rewrite Z.sgn_pos, Z.abs_eq by lia. f_equal. lia.
Qed.

Lemma Div_zero (a : Z) : big.Div a 0 = Panic DivisionByZero.
Proof. reflexivity. Qed.

Lemma Div_nonzero (a b : Z) : b <> 0 -> exists q, big.Div a b = Ok q.
Proof.
  intros Hb. unfold big.Div.
  destruct (Z.eqb_spec b 0) as [->|_]; [lia|]. eauto.
Qed.

Lemma rescale_toQ128 (n v : Z) : rescale (toQ128 n * v) = n * v.
Proof.
  unfold rescale, toQ128.
  replace (n * 2 ^ 128 * v) with (n * v * 2 ^ 128) by ring.
  apply Z.div_mul. lia.
Qed.

Lemma extrapolated_exact (prev : FilterEstimate) (d : Z) :
  extrapolated prev d = PositionEstimate prev + d * VelocityEstimate prev.
Proof. unfold extrapolated. now rewrite rescale_toQ128. Qed.

(** ** [NextEstimate] *)

(** The body of [NextEstimate] once the previous estimate is read: the only
    way to fail is the division by [deltaT]. *)
Lemma NextEstimate_run (h : store) (f : AlphaBetaFilter)
    (prev : FilterEstimate) (observation epochDelta : Z) :
  h !! prevEstimate f = Some prev ->
  NextEstimate f observation epochDelta h =
    match big.Div (beta f * residual prev observation epochDelta)
                  (toQ128 epochDelta) with
    | Ok v =>
        (Ok (length h),
         h ++ [ {| PositionEstimate :=
                     extrapolated prev epochDelta
                     + rescale (alpha f * residual prev observation epochDelta);
                   VelocityEstimate := VelocityEstimate prev + v |} ])
    | Panic p => (Panic p, h)
    end.
Proof.
  intros Hprev.
  unfold NextEstimate, bind, deref, lift, alloc. rewrite Hprev.
  rewrite !Rsh_Precision, !Lsh_Precision.
  unfold big.Mul, big.Sum, big.Sub, big.NewInt.
  unfold residual, extrapolated, rescale, toQ128.
  destruct (big.Div _ _); reflexivity.
Qed.

Lemma NextEstimate_pos (h : store) (f : AlphaBetaFilter)
    (prev : FilterEstimate) (observation epochDelta : Z) :
  h !! prevEstimate f = Some prev ->
  0 < epochDelta ->
  NextEstimate f observation epochDelta h =
    (Ok (length h),
     h ++ [ revised (alpha f) (beta f) prev observation epochDelta ]).
Proof.
  intros Hprev Hd.
  rewrite (NextEstimate_run h f prev) by assumption.
  unfold toQ128 at 1. rewrite Div_pos by lia.
  unfold revised, rescale at 3.
  rewrite (Z.mul_comm epochDelta), <- Z.div_div by lia.
  reflexivity.
Qed.

(** ** [ExtrapolatedCumSumOfRatio] *)

Lemma trajectory_exact (e : FilterEstimate) (t : Z) :
  trajectory e t = PositionEstimate e + t * VelocityEstimate e.
Proof. unfold trajectory. now rewrite rescale_toQ128. Qed.

Lemma rbind_lift {A B : Type} (r : result A) (k : A -> M B) (h : store) :
  bind (lift r) k h =
    match r with
    | Ok a => k a h
    | Panic p => (Panic p, h)
    end.
Proof. reflexivity. Qed.

(** Once both estimates are read the store plays no part: the call computes
    [cumSumOfRatio] of the two estimates and leaves the store as it was. *)
Lemma ExtrapolatedCumSumOfRatio_run (h : store) (delta relativeStart : Z)
    (estimateNum estimateDenom : loc) (num denom : FilterEstimate) :
  h !! estimateNum = Some num ->
  h !! estimateDenom = Some denom ->
  ExtrapolatedCumSumOfRatio delta relativeStart estimateNum estimateDenom h =
    (cumSumOfRatio delta relativeStart num denom, h).
Proof.
  intros Hn Hd.
  unfold ExtrapolatedCumSumOfRatio, cumSumOfRatio.
  unfold bind at 1, deref at 1. rewrite Hn.
  unfold bind at 1, deref at 1. rewrite Hd.
  rewrite !Rsh_Precision, !Lsh_Precision.
  unfold big.GreaterThan, big.Mul, big.Sum, big.Add, big.Sub, big.NewInt.
  fold (squaredVelocity denom).
  change (VelocityEstimate denom * VelocityEstimate denom / 2 ^ 128)
    with (squaredVelocity denom).
  destruct (squaredVelocity denom >? ExtrapolatedCumSumRatioEpsilon).
  - unfold closedForm.
    replace (PositionEstimate denom
             + relativeStart * 2 ^ 128 * VelocityEstimate denom / 2 ^ 128)
      with (trajectory denom relativeStart) by reflexivity.
    replace (trajectory denom relativeStart
             + delta * 2 ^ 128 * VelocityEstimate denom / 2 ^ 128)
      with (trajectory denom (relativeStart + delta)).
    2:{ rewrite !trajectory_exact.
        replace (delta * 2 ^ 128 * VelocityEstimate denom)
          with (delta * VelocityEstimate denom * 2 ^ 128) by ring.
        rewrite Z.div_mul by lia. ring. }
    rewrite rbind_lift.
    destruct (ln (trajectory denom relativeStart)) as [lnA|p]; [|reflexivity].
    rewrite rbind_lift.
    destruct (ln (trajectory denom (relativeStart + delta))) as [lnB|p];
      [|reflexivity].
    cbn [rbind]. unfold lift, big.Rsh, toQ128.
    change (math.Precision * 2) with 256.
    rewrite !Z.shiftr_div_pow2 by lia.
    reflexivity.
  - unfold midpointRule, midpoint, toQ128.
    rewrite (Div_pos (delta * 2 ^ 128) 2) by lia.
    rewrite rbind_lift, rbind_lift.
    rewrite !Rsh_Precision. unfold rescale.
    destruct (big.Div _ (PositionEstimate denom)); cbn [rbind]; [|reflexivity].
    unfold ret. now rewrite Rsh_Precision.
Qed.

(** ** The logarithm on arguments at least one *)

Lemma BitLen_pos (z : Z) : 0 < z -> big.BitLen z = Z.log2 z + 1.
Proof.
  intros Hz. unfold big.BitLen.
  destruct (Z.eqb_spec z 0); [lia|]. now rewrite Z.abs_eq by lia.
Qed.

Lemma lnExponent_nonneg (z : Z) : 2 ^ 128 <= z -> 0 <= lnExponent z.
Proof.
  intros Hz. unfold lnExponent.
  pose proof (Z.log2_le_mono _ _ Hz) as H.
  rewrite Z.log2_pow2 in H by lia. lia.
Qed.

Lemma lnMantissa_bounds (z : Z) :
  2 ^ 128 <= z ->
  lnMantissa z * 2 ^ lnExponent z <= z < (lnMantissa z + 1) * 2 ^ lnExponent z.
Proof.
  intros Hz. unfold lnMantissa.
  pose proof (lnExponent_nonneg z Hz) as Hk.
  assert (0 < 2 ^ lnExponent z) as Hp by (apply Z.pow_pos_nonneg; lia).
  pose proof (Z.mul_div_le z _ Hp).
  pose proof (Z.mul_succ_div_gt z _ Hp).
  lia.
Qed.

Lemma lnMantissa_range (z : Z) :
  2 ^ 128 <= z -> 2 ^ 128 <= lnMantissa z < 2 ^ 129.
Proof.
  intros Hz. unfold lnMantissa.
  pose proof (lnExponent_nonneg z Hz) as Hk.
  assert (0 < 2 ^ lnExponent z) as Hp by (apply Z.pow_pos_nonneg; lia).
  assert (0 < z) as Hz0 by lia.
  pose proof (Z.log2_spec z Hz0) as [Hlo Hhi].
  replace (Z.log2 z) with (128 + lnExponent z) in Hlo
    by (unfold lnExponent; lia).
  replace (Z.succ (Z.log2 z)) with (129 + lnExponent z) in Hhi
    by (unfold lnExponent; lia).
  rewrite Z.pow_add_r in Hlo, Hhi by lia.
  split.
  - apply Z.div_le_lower_bound; lia.
  - apply Z.div_lt_upper_bound; lia.
Qed.

Lemma uint_small (n : Z) : 0 <= n < 2 ^ 64 -> uint n = n.
Proof. intros Hn. unfold uint. now apply Z.mod_small. Qed.

Lemma int64_small (n : Z) : - 2 ^ 63 <= n < 2 ^ 63 -> int64 n = n.
Proof. intros Hn. unfold int64. rewrite Z.mod_small; lia. Qed.

Lemma LshAlloc_fits (a n : Z) :
  n < big.maxShift -> big.LshAlloc a n = Ok (big.Lsh a n).
Proof.
  intros Hn. unfold big.LshAlloc.
  destruct (Z.leb_spec big.maxShift n); [lia|].
  now rewrite andb_false_r.
Qed.

Lemma LshAlloc_zero (n : Z) : big.LshAlloc 0 n = Ok 0.
Proof.
  unfold big.LshAlloc, big.Lsh. cbn [Z.eqb negb andb].
  now rewrite Z.shiftl_0_l.
Qed.

Lemma LshAlloc_panics (a n : Z) :
  a <> 0 -> big.maxShift <= n -> big.LshAlloc a n = Panic LenOutOfRange.
Proof.
  intros Ha Hn. unfold big.LshAlloc.
  destruct (Z.eqb_spec a 0); [contradiction|].
  destruct (Z.leb_spec big.maxShift n); [reflexivity|lia].
Qed.

(** On [z >= 1] the decomposition is the intended one, whatever the width
    of [uint], as long as the exponent fits it. *)
Lemma lnWith_ge_one (toUint : Z -> Z) (bound z : Z) :
  (forall n : Z, 0 <= n < bound -> toUint n = n) ->
  bound <= 2 ^ 63 ->
  2 ^ 128 <= z ->
  lnExponent z < bound ->
  lnWith toUint z = (let? r := lnBetweenOneAndTwo (lnMantissa z) in
                     Ok (lnExponent z * ln2 + r)).
Proof.
  intros Hconv Hbound Hz Hlen.
  pose proof (lnExponent_nonneg z Hz) as Hk.
  unfold lnWith.
  rewrite BitLen_pos in * by lia.
  replace (Z.log2 z + 1 - 1 - math.Precision) with (lnExponent z)
    by (unfold lnExponent, math.Precision; lia).
  rewrite Hconv by lia. rewrite int64_small by lia.
  rewrite Rsh_Precision, Lsh_Precision.
  unfold big.NewInt, big.Mul, big.Sum, big.GreaterThan, big.Zero.
  replace (lnExponent z * 2 ^ 128 * ln2 / 2 ^ 128) with (lnExponent z * ln2).
  2:{ replace (lnExponent z * 2 ^ 128 * ln2)
        with (lnExponent z * ln2 * 2 ^ 128) by ring.
      now rewrite Z.div_mul by lia. }
  assert ((if lnExponent z * 2 ^ 128 >? 0
           then Ok (big.Rsh z (lnExponent z))
           else big.LshAlloc z (lnExponent z))
          = Ok (lnMantissa z)) as ->; [|reflexivity].
  unfold lnMantissa.
  destruct (Z.gtb_spec (lnExponent z * 2 ^ 128) 0).
  - unfold big.Rsh. apply f_equal, Z.shiftr_div_pow2. lia.
  - replace (lnExponent z) with 0 by lia.
    rewrite LshAlloc_fits by (unfold big.maxShift; lia).
    unfold big.Lsh. rewrite Z.shiftl_0_r, Z.pow_0_r.
    apply f_equal. symmetry. apply Z.div_1_r.
Qed.

Lemma ln_ge_one (z : Z) :
  2 ^ 128 <= z ->
  big.BitLen z < 2 ^ 63 ->
  ln z = (let? r := lnBetweenOneAndTwo (lnMantissa z) in
          Ok (lnExponent z * ln2 + r)).
Proof.
  intros Hz Hlen. unfold ln.
  apply (lnWith_ge_one uint (2 ^ 63) z); [|lia|exact Hz|].
  - intros n Hn. apply uint_small. lia.
  - rewrite BitLen_pos in Hlen by lia. unfold lnExponent. lia.
Qed.

(** ** Truncated Horner evaluation *)

Lemma horner_eq (x r c : Z) : math.horner x r c = r * x / 2 ^ 128 + c.
Proof. unfold math.horner, big.Add, big.Mul. now rewrite Rsh_Precision. Qed.

Lemma evalPoly_nonneg (x : Z) (cs : list Z) (r : Z) :
  0 <= x -> 0 <= r -> Forall (fun c => 0 <= c) cs -> 0 <= evalPoly x cs r.
Proof.
  intros Hx Hr Hcs. revert r Hr.
  induction Hcs as [|c cs Hc _ IH]; intros r Hr; [exact Hr|].
  apply IH. rewrite horner_eq.
  assert (0 <= r * x / 2 ^ 128) by (apply Z.div_pos; nia). lia.
Qed.

Lemma evalPoly_snoc (x : Z) (cs : list Z) (c r : Z) :
  evalPoly x (cs ++ [c]) r = math.horner x (evalPoly x cs r) c.
Proof. unfold evalPoly. now rewrite fold_left_app. Qed.

Lemma lnBetweenOneAndTwo_eq (x : Z) :
  lnBetweenOneAndTwo x = big.Div (lnNum x * 2 ^ 128) (lnDenom x).
Proof.
  unfold lnBetweenOneAndTwo, math.Polyval, lnNumCoef, lnDenomCoef.
  cbn [rbind]. now rewrite Lsh_Precision.
Qed.

Lemma lnDenom_nonneg_arg (x : Z) : 0 <= x -> 2 ^ 128 <= lnDenom x.
Proof.
  intros Hx. unfold lnDenom.
  change (tl lnDenomCoef)
    with (removelast (tl lnDenomCoef) ++ [2 ^ 128]).
  rewrite evalPoly_snoc, horner_eq.
  assert (0 <= evalPoly x (removelast (tl lnDenomCoef)) (hd 0 lnDenomCoef))
    as Hr.
  { apply evalPoly_nonneg; [lia|cbn; lia|].
    cbn [lnDenomCoef tl removelast]. repeat constructor; lia. }
  assert (0 <= evalPoly x (removelast (tl lnDenomCoef)) (hd 0 lnDenomCoef)
               * x / 2 ^ 128) by (apply Z.div_pos; nia).
  lia.
Qed.

Lemma lnBetweenOneAndTwo_nonneg_arg (x : Z) :
  0 <= x -> lnBetweenOneAndTwo x = Ok (lnNum x * 2 ^ 128 / lnDenom x).
Proof.
  intros Hx. rewrite lnBetweenOneAndTwo_eq.
  pose proof (lnDenom_nonneg_arg x Hx). apply Div_pos. lia.
Qed.

(** ** Soundness of the interval evaluation *)

Lemma mul_between (a b r x : Z) :
  a <= r <= b ->
  a * x <= r * x <= b * x \/ b * x <= r * x <= a * x.
Proof. intros H. destruct (Z.le_gt_cases 0 x); [left|right]; nia. Qed.

Lemma imul_sound (r x : Z) (ri xi : Z * Z) :
  inI r ri -> inI x xi -> inI (r * x) (imul ri xi).
Proof.
  destruct ri as [a b], xi as [c d]. unfold inI, imul. cbn [fst snd].
  intros Hr Hx.
  pose proof (mul_between a b r x Hr) as H1.
  pose proof (mul_between c d x a Hx) as H2.
  pose proof (mul_between c d x b Hx) as H3.
  rewrite (Z.mul_comm c a), (Z.mul_comm x a), (Z.mul_comm d a) in H2.
  rewrite (Z.mul_comm c b), (Z.mul_comm x b), (Z.mul_comm d b) in H3.
  lia.
Qed.

Lemma hornerI_sound (x r c : Z) (xi ri : Z * Z) :
  inI x xi -> inI r ri -> inI (math.horner x r c) (hornerI xi ri c).
Proof.
  intros Hx Hr. rewrite horner_eq.
  destruct (imul_sound r x ri xi Hr Hx) as [Hlo Hhi].
  unfold inI, hornerI. cbn [fst snd].
  pose proof (Z.div_le_mono _ _ (2 ^ 128) ltac:(lia) Hlo).
  pose proof (Z.div_le_mono _ _ (2 ^ 128) ltac:(lia) Hhi).
  lia.
Qed.

Lemma evalPolyI_sound (x : Z) (xi : Z * Z) (cs : list Z) :
  inI x xi ->
  forall (r : Z) (ri : Z * Z),
    inI r ri -> inI (evalPoly x cs r) (evalPolyI xi cs ri).
Proof.
  intros Hx. induction cs as [|c cs IH]; intros r ri Hr; [exact Hr|].
  apply IH. now apply hornerI_sound.
Qed.

Lemma negativeOn_sound (fuel : nat) (c0 : Z) (cs : list Z) :
  forall xl xh x : Z,
    negativeOn fuel c0 cs xl xh = true ->
    xl <= x <= xh -> evalPoly x cs c0 < 0.
Proof.
  induction fuel as [|n IH]; intros xl xh x Hchk Hx; cbn [negativeOn] in Hchk.
  - rewrite orb_false_r in Hchk. apply Z.ltb_lt in Hchk.
    assert (inI (evalPoly x cs c0) (evalPolyI (xl, xh) cs (c0, c0))) as [_ H].
    { apply evalPolyI_sound; unfold inI; cbn [fst snd]; lia. }
    lia.
  - apply orb_true_iff in Hchk as [Hchk|Hchk].
    + apply Z.ltb_lt in Hchk.
      assert (inI (evalPoly x cs c0) (evalPolyI (xl, xh) cs (c0, c0)))
        as [_ H].
      { apply evalPolyI_sound; unfold inI; cbn [fst snd]; lia. }
      lia.
    + apply andb_true_iff in Hchk as [Hl Hr].
      destruct (Z.le_gt_cases x ((xl + xh) / 2)).
      * apply (IH xl ((xl + xh) / 2)); [assumption|lia].
      * apply (IH ((xl + xh) / 2) xh); [assumption|lia].
Qed.

Lemma div_sub_bounds (a b m : Z) :
  0 < m -> (a - b) / m <= a / m - b / m <= (a - b) / m + 1.
Proof.
  intros Hm.
  pose proof (Z.div_mod a m ltac:(lia)).
  pose proof (Z.div_mod b m ltac:(lia)).
  pose proof (Z.div_mod (a - b) m ltac:(lia)).
  pose proof (Z.mod_pos_bound a m Hm).
  pose proof (Z.mod_pos_bound b m Hm).
  pose proof (Z.mod_pos_bound (a - b) m Hm).
  nia.
Qed.

Lemma hornerJ_sound (x r r' c : Z) (xi : Z * Z) (j : jet) :
  fst xi <= x -> x + 1 <= snd xi ->
  inI r (val j) -> inI (r' - r) (dif j) ->
  inI (math.horner x r c) (val (hornerJ xi j c))
  /\ inI (math.horner (x + 1) r' c - math.horner x r c) (dif (hornerJ xi j c)).
Proof.
  intros Hxl Hxh Hr Hd. split.
  - apply hornerI_sound; [unfold inI; lia|assumption].
  - rewrite !horner_eq.
    assert (inI (x + 1) (fst xi + 1, snd xi + 1)) as Hx1
      by (unfold inI; cbn [fst snd]; lia).
    destruct (imul_sound (r' - r) (x + 1) _ _ Hd Hx1) as [Hlo Hhi].
    destruct Hr as [Hrl Hrh].
    pose proof (div_sub_bounds (r' * (x + 1)) (r * x) (2 ^ 128) ltac:(lia))
      as [Hdl Hdh].
    replace (r' * (x + 1) - r * x) with (r + (r' - r) * (x + 1)) in Hdl, Hdh
      by ring.
    unfold inI, hornerJ. cbn [fst snd val dif].
    assert (fst (val j) + fst (imul (dif j) (fst xi + 1, snd xi + 1))
            <= r + (r' - r) * (x + 1)) as H1 by lia.
    assert (r + (r' - r) * (x + 1)
            <= snd (val j) + snd (imul (dif j) (fst xi + 1, snd xi + 1)))
      as H2 by lia.
    pose proof (Z.div_le_mono _ _ (2 ^ 128) ltac:(lia) H1).
    pose proof (Z.div_le_mono _ _ (2 ^ 128) ltac:(lia) H2).
    lia.
Qed.

Lemma evalPolyJ_sound (x : Z) (xi : Z * Z) (cs : list Z) :
  fst xi <= x -> x + 1 <= snd xi ->
  forall (r r' : Z) (j : jet),
    inI r (val j) -> inI (r' - r) (dif j) ->
    inI (evalPoly x cs r) (val (fold_left (hornerJ xi) cs j))
    /\ inI (evalPoly (x + 1) cs r' - evalPoly x cs r)
           (dif (fold_left (hornerJ xi) cs j)).
Proof.
  intros Hxl Hxh. induction cs as [|c cs IH]; intros r r' j Hr Hd.
  - now split.
  - destruct (hornerJ_sound x r r' c xi j Hxl Hxh Hr Hd) as [Hv Hdf].
    apply (IH _ _ _ Hv Hdf).
Qed.

(** ** The denominator of the logarithm on a negative mantissa

    From minus two to minus one the denominator polynomial is negative. *)

Lemma lnDenom_negative_arg (x : Z) :
  - 2 ^ 129 <= x <= - 2 ^ 128 -> lnDenom x < 0.
Proof.
  intros Hx. unfold lnDenom.
  apply (negativeOn_sound 5 _ _ (- 2 ^ 129) (- 2 ^ 128)); [|exact Hx].
  vm_compute. reflexivity.
Qed.

(** ** [ln] on every argument *)

Lemma uint_range (n : Z) : 0 <= uint n < 2 ^ 64.
Proof. unfold uint. apply Z.mod_pos_bound. lia. Qed.

Lemma ln_unfold (z : Z) :
  ln z = (let? x := lnArg z in
          let? r := lnBetweenOneAndTwo x in
          Ok (int64 (lnShift z) * ln2 + r)).
Proof.
  unfold ln, lnWith. fold (lnShift z).
  pose proof (uint_range (big.BitLen z - 1 - math.Precision)) as Hs.
  fold (lnShift z) in Hs.
  rewrite Rsh_Precision, Lsh_Precision.
  unfold big.NewInt, big.Mul, big.Sum, big.GreaterThan, big.Zero.
  replace (int64 (lnShift z) * 2 ^ 128 * ln2 / 2 ^ 128)
    with (int64 (lnShift z) * ln2).
  2:{ replace (int64 (lnShift z) * 2 ^ 128 * ln2)
        with (int64 (lnShift z) * ln2 * 2 ^ 128) by ring.
      now rewrite Z.div_mul by lia. }
  unfold lnArg, big.Rsh.
  rewrite Z.shiftr_div_pow2 by lia.
  reflexivity.
Qed.

Lemma BitLen_neg (z : Z) : z < 0 -> big.BitLen z = Z.log2 (- z) + 1.
Proof.
  intros Hz. unfold big.BitLen.
  destruct (Z.eqb_spec z 0); [lia|]. now rewrite Z.abs_neq by lia.
Qed.

(** Below one the exponent is negative, and its conversion to [uint] wraps
    around to a count of almost [2^64]. *)
Lemma lnShift_small (z : Z) :
  z <> 0 -> Z.abs z < 2 ^ 128 ->
  lnShift z = 2 ^ 64 + (Z.log2 (Z.abs z) - 128)
  /\ int64 (lnShift z) = Z.log2 (Z.abs z) - 128.
Proof.
  intros Hz Hlt.
  assert (0 < Z.abs z) as Hpos by lia.
  assert (Z.log2 (Z.abs z) < 128) as Hlog by (apply Z.log2_lt_pow2; lia).
  pose proof (Z.log2_nonneg (Z.abs z)) as Hlog0.
  assert (lnShift z = 2 ^ 64 + (Z.log2 (Z.abs z) - 128)) as Hshift.
  { unfold lnShift, uint, big.BitLen.
    destruct (Z.eqb_spec z 0); [contradiction|].
    unfold math.Precision.
    replace (Z.log2 (Z.abs z) + 1 - 1 - 128)
      with (2 ^ 64 + (Z.log2 (Z.abs z) - 128) + (- 1) * 2 ^ 64) by ring.
    rewrite Z.mod_add by lia. apply Z.mod_small. lia. }
  split; [exact Hshift|].
  rewrite Hshift. unfold int64.
  replace (2 ^ 64 + (Z.log2 (Z.abs z) - 128) + 2 ^ 63)
    with (Z.log2 (Z.abs z) - 128 + 2 ^ 63 + 1 * 2 ^ 64) by ring.
  rewrite Z.mod_add by lia. rewrite Z.mod_small; lia.
Qed.

(** The left shift by the wrapped count cannot be allocated. *)
Lemma lnArg_small (z : Z) :
  z <> 0 -> Z.abs z < 2 ^ 128 -> lnArg z = Panic LenOutOfRange.
Proof.
  intros Hz Hlt.
  destruct (lnShift_small z Hz Hlt) as [Hshift Hk].
  assert (Z.log2 (Z.abs z) < 128) as Hlog by (apply Z.log2_lt_pow2; lia).
  pose proof (Z.log2_nonneg (Z.abs z)) as Hlog0.
  unfold lnArg. rewrite Hk.
  destruct (Z.gtb_spec ((Z.log2 (Z.abs z) - 128) * 2 ^ 128) 0); [lia|].
  apply LshAlloc_panics; [exact Hz|].
  rewrite Hshift. unfold big.maxShift. lia.
Qed.

Lemma lnShift_zero : lnShift 0 = 2 ^ 64 - 129 /\ int64 (lnShift 0) = - 129.
Proof. split; vm_compute; reflexivity. Qed.

(** Zero is shifted without an allocation. *)
Lemma lnArg_zero : lnArg 0 = Ok 0.
Proof.
  destruct lnShift_zero as [_ Hk].
  unfold lnArg. rewrite Hk.
  assert ((- 129 * 2 ^ 128 >? 0) = false) as -> by reflexivity.
  apply LshAlloc_zero.
Qed.

Lemma lnArg_neg_large (z : Z) :
  z <= - 2 ^ 128 -> representable z ->
  exists x, lnArg z = Ok x /\ - 2 ^ 129 <= x <= - 2 ^ 128.
Proof.
  intros Hz Hrep. unfold representable in Hrep.
  rewrite BitLen_neg in Hrep by lia.
  assert (2 ^ 128 <= - z) as Hz' by lia.
  pose proof (Z.log2_le_mono _ _ Hz') as Hlog.
  rewrite Z.log2_pow2 in Hlog by lia.
  pose proof (Z.log2_spec (- z) ltac:(lia)) as [Hlo Hhi].
  set (k := Z.log2 (- z) - 128) in *.
  assert (lnShift z = k) as Hshift.
  { unfold lnShift. rewrite BitLen_neg by lia.
    replace (Z.log2 (- z) + 1 - 1 - math.Precision) with k
      by (unfold k, math.Precision; lia).
    apply uint_small. lia. }
  replace (Z.log2 (- z)) with (128 + k) in Hlo by (unfold k; lia).
  replace (Z.succ (Z.log2 (- z))) with (129 + k) in Hhi by (unfold k; lia).
  rewrite Z.pow_add_r in Hlo, Hhi by lia.
  assert (0 < 2 ^ k) by (apply Z.pow_pos_nonneg; lia).
  unfold lnArg. rewrite Hshift, int64_small by lia.
  destruct (Z.gtb_spec (k * 2 ^ 128) 0).
  - eexists. split; [reflexivity|]. split.
    + apply Z.div_le_lower_bound; lia.
    + assert (z / 2 ^ k < - 2 ^ 128 + 1); [|lia].
      apply Z.div_lt_upper_bound; lia.
  - replace k with 0 in * by lia.
    rewrite LshAlloc_fits by (unfold big.maxShift; lia).
    unfold big.Lsh. rewrite Z.shiftl_0_r.
    eexists. split; [reflexivity|]. rewrite Z.pow_0_r in *. lia.
Qed.

(** Where the shift can be done, [ln] returns: the denominator of the
    rational function is positive on the arguments that are not negative,
    and negative on [-2, -1]. *)
Lemma ln_returns (z : Z) :
  representable z -> lnShiftFits z -> exists v, ln z = Ok v.
Proof.
  intros Hrep [->|Hbig].
  - rewrite ln_unfold, lnArg_zero. cbn [rbind].
    rewrite lnBetweenOneAndTwo_nonneg_arg by lia. cbn [rbind]. eauto.
  - destruct (Z.le_gt_cases 0 z) as [Hz|Hz].
    + rewrite Z.abs_eq in Hbig by lia.
      rewrite ln_ge_one by assumption.
      pose proof (lnMantissa_range z Hbig).
      rewrite lnBetweenOneAndTwo_nonneg_arg by lia. cbn [rbind]. eauto.
    + rewrite Z.abs_neq in Hbig by lia.
      destruct (lnArg_neg_large z ltac:(lia) Hrep) as (x & Hx & Hrange).
      rewrite ln_unfold, Hx. cbn [rbind].
      rewrite lnBetweenOneAndTwo_eq.
      pose proof (lnDenom_negative_arg x Hrange).
      destruct (Div_nonzero (lnNum x * 2 ^ 128) (lnDenom x)) as [q ->];
        [lia|].
      cbn [rbind]. eauto.
Qed.

(** Below one in magnitude, zero apart, [ln] panics before it divides. *)
Lemma ln_panics_small (z : Z) :
  z <> 0 -> Z.abs z < 2 ^ 128 -> ln z = Panic LenOutOfRange.
Proof.
  intros Hz Hlt. rewrite ln_unfold, lnArg_small by assumption. reflexivity.
Qed.

Lemma ln_Ok_fits (z v : Z) : ln z = Ok v -> lnShiftFits z.
Proof.
  intros Hv.
  destruct (Z.eq_dec z 0) as [->|Hz]; [now left|].
  destruct (Z.lt_ge_cases (Z.abs z) (2 ^ 128)) as [Hlt|Hge]; [|now right].
  rewrite ln_panics_small in Hv by assumption. discriminate.
Qed.

(** [ln] returns or fails to allocate, on every integer the program can
    hold: it never divides by zero. *)
Lemma ln_outcomes (z : Z) :
  representable z ->
  (exists v, ln z = Ok v) \/ ln z = Panic LenOutOfRange.
Proof.
  intros Hrep.
  destruct (Z.eq_dec z 0) as [->|Hz].
  - left. apply ln_returns; [exact Hrep|now left].
  - destruct (Z.lt_ge_cases (Z.abs z) (2 ^ 128)) as [Hlt|Hge].
    + right. now apply ln_panics_small.
    + left. apply ln_returns; [exact Hrep|now right].
Qed.

(** ** The quotient of the two polynomials does not decrease on [1, 2] *)

Lemma evalPolyJ_start (x xl xh : Z) (cs : list Z) (c0 : Z) :
  xl <= x -> x + 1 <= xh ->
  inI (evalPoly x cs c0) (val (evalPolyJ (xl, xh) cs c0))
  /\ inI (evalPoly (x + 1) cs c0 - evalPoly x cs c0)
         (dif (evalPolyJ (xl, xh) cs c0)).
Proof.
  intros Hxl Hxh. unfold evalPolyJ.
  apply evalPolyJ_sound; unfold inI; cbn [val dif fst snd]; lia.
Qed.

Lemma quotientCheck_sound (jn jd : jet) (N N' D D' : Z) :
  quotientCheck jn jd = true ->
  inI N (val jn) -> inI (N' - N) (dif jn) ->
  inI D (val jd) -> inI (D' - D) (dif jd) ->
  0 < D /\ 0 < D' /\ N * D' <= N' * D.
Proof.
  destruct jn as [[Nlo Nhi] [dNlo dNhi]], jd as [[Dlo Dhi] [dDlo dDhi]].
  unfold quotientCheck, inI. cbn [fst snd val dif].
  intros Hchk [_ HNh] [HdNl _] [HDl _] [HdDl HdDh].
  apply andb_true_iff in Hchk as [Hchk H4].
  apply andb_true_iff in Hchk as [Hchk H3].
  apply andb_true_iff in Hchk as [H1 H2].
  apply Z.ltb_lt in H1. apply Z.leb_le in H2, H3, H4.
  pose proof (Z.le_max_l Nhi 0). pose proof (Z.le_max_r Nhi 0).
  set (P := Z.max Nhi 0) in *. clearbody P.
  split; [lia|]. split; [lia|].
  assert (N * (D' - D) <= P * dDhi) as Hup.
  { transitivity (P * (D' - D)).
    - apply Z.mul_le_mono_nonneg_r; lia.
    - apply Z.mul_le_mono_nonneg_l; lia. }
  assert (dNlo * Dlo <= (N' - N) * D) as Hlow
    by (apply Z.mul_le_mono_nonneg; lia).
  assert (N * (D' - D) <= (N' - N) * D) as Hfin
    by (etransitivity; [exact Hup|etransitivity; [exact H4|exact Hlow]]).
  clear - Hfin. lia.
Qed.

Lemma quotientCheck_poly (nc dc : list Z) (n0 d0 xl xh x : Z) :
  quotientCheck (evalPolyJ (xl, xh) nc n0) (evalPolyJ (xl, xh) dc d0) = true ->
  xl <= x -> x + 1 <= xh ->
  0 < evalPoly x dc d0 /\ 0 < evalPoly (x + 1) dc d0
  /\ evalPoly x nc n0 * evalPoly (x + 1) dc d0
     <= evalPoly (x + 1) nc n0 * evalPoly x dc d0.
Proof.
  intros Hchk Hxl Hxh.
  pose proof (evalPolyJ_start x xl xh nc n0 Hxl Hxh) as [HN HdN].
  pose proof (evalPolyJ_start x xl xh dc d0 Hxl Hxh) as [HD HdD].
  exact (quotientCheck_sound _ _ _ _ _ _ Hchk HN HdN HD HdD).
Qed.

Lemma quotientStep_sound (xl xh x : Z) :
  quotientStep xl xh = true ->
  xl <= x -> x + 1 <= xh ->
  0 < lnDenom x /\ 0 < lnDenom (x + 1)
  /\ lnNum x * lnDenom (x + 1) <= lnNum (x + 1) * lnDenom x.
Proof.
  exact (quotientCheck_poly (tl lnNumCoef) (tl lnDenomCoef)
           (hd 0 lnNumCoef) (hd 0 lnDenomCoef) xl xh x).
Qed.

Lemma bisect_sound (check : Z -> Z -> bool) (P : Z -> Prop) :
  (forall xl xh x : Z,
     check xl xh = true -> xl <= x -> x + 1 <= xh -> P x) ->
  forall (fuel : nat) (xl xh x : Z),
    bisect check fuel xl xh = true -> xl <= x -> x + 1 <= xh -> P x.
Proof.
  intros Hcheck.
  induction fuel as [|n IH]; intros xl xh x Hchk Hxl Hxh; cbn [bisect] in Hchk.
  - rewrite orb_false_r in Hchk. exact (Hcheck xl xh x Hchk Hxl Hxh).
  - apply orb_true_iff in Hchk as [Hchk|Hchk];
      [exact (Hcheck xl xh x Hchk Hxl Hxh)|].
    apply andb_true_iff in Hchk as [Hl Hr].
    destruct (Z.le_gt_cases (x + 1) ((xl + xh) / 2)) as [Hc|Hc].
    + apply (IH xl ((xl + xh) / 2) x Hl); lia.
    + apply (IH ((xl + xh) / 2) xh x Hr); lia.
Qed.

Lemma quotientMonotoneOn_sound (fuel : nat) (xl xh x : Z) :
  quotientMonotoneOn fuel xl xh = true ->
  xl <= x -> x + 1 <= xh ->
  0 < lnDenom x /\ 0 < lnDenom (x + 1)
  /\ lnNum x * lnDenom (x + 1) <= lnNum (x + 1) * lnDenom x.
Proof.
  exact (bisect_sound quotientStep
           (fun x => 0 < lnDenom x /\ 0 < lnDenom (x + 1)
                     /\ lnNum x * lnDenom (x + 1) <= lnNum (x + 1) * lnDenom x)
           quotientStep_sound fuel xl xh x).
Qed.

Lemma quotient_le (n n' d d' m : Z) :
  0 < m -> 0 < d -> 0 < d' -> n * d' <= n' * d ->
  n * m / d <= n' * m / d'.
Proof.
  intros Hm Hd Hd' Hc.
  apply Z.div_le_lower_bound; [assumption|].
  pose proof (Z.mul_div_le (n * m) d Hd) as Hq.
  set (q := n * m / d) in *. clearbody q.
  apply (Z.mul_le_mono_pos_l _ _ d Hd).
  transitivity (d' * (n * m)).
  - replace (d * (d' * q)) with (d' * (d * q)) by ring.
    apply Z.mul_le_mono_nonneg_l; lia.
  - replace (d' * (n * m)) with (n * d' * m) by ring.
    replace (d * (n' * m)) with (n' * d * m) by ring.
    apply Z.mul_le_mono_nonneg_r; lia.
Qed.

Lemma lnValue_step (x : Z) :
  2 ^ 128 <= x -> x + 1 <= 2 ^ 129 -> lnValue x <= lnValue (x + 1).
Proof.
  intros Hlo Hhi.
  assert (quotientMonotoneOn 4 (2 ^ 128) (2 ^ 129) = true) as Hchk
    by (vm_compute; reflexivity).
  pose proof (quotientMonotoneOn_sound 4 _ _ x Hchk Hlo Hhi)
    as (Hd & Hd' & Hc).
  unfold lnValue. apply quotient_le; (assumption || lia).
Qed.

Lemma lnValue_monotone (a b : Z) :
  2 ^ 128 <= a -> a <= b -> b <= 2 ^ 129 -> lnValue a <= lnValue b.
Proof.
  intros Ha Hab. revert b Hab.
  apply (Z.le_ind (fun b => b <= 2 ^ 129 -> lnValue a <= lnValue b)).
  - intros ? ? ->. reflexivity.
  - intros _. reflexivity.
  - intros m Ham IH Hm. rewrite <- Z.add_1_r in *.
    transitivity (lnValue m); [apply IH; lia|apply lnValue_step; lia].
Qed.

(** ** [ln] on arguments at least one: value, monotonicity, doubling *)

Lemma representable_pos (z : Z) : 0 < z -> representable z <-> Z.log2 z + 1 < 2 ^ 63.
Proof. intros Hz. unfold representable. now rewrite BitLen_pos. Qed.

Lemma ln_ge_one_value (z : Z) :
  2 ^ 128 <= z -> representable z ->
  ln z = Ok (lnExponent z * ln2 + lnValue (lnMantissa z)).
Proof.
  intros Hz Hrep. rewrite ln_ge_one by assumption.
  pose proof (lnMantissa_range z Hz).
  rewrite lnBetweenOneAndTwo_nonneg_arg by lia. reflexivity.
Qed.

Lemma ln2_pos : 0 < ln2.
Proof. reflexivity. Qed.

Lemma lnValue_band : lnValue (2 ^ 129) <= ln2 + lnValue (2 ^ 128).
Proof. vm_compute. discriminate. Qed.

Lemma ln_monotone_ge_one (x y : Z) :
  2 ^ 128 <= x -> x <= y -> representable y ->
  exists vx vy, ln x = Ok vx /\ ln y = Ok vy /\ vx <= vy.
Proof.
  intros Hx Hxy Hrepy.
  assert (Z.log2 x <= Z.log2 y) as Hlog by (apply Z.log2_le_mono; lia).
  assert (representable x) as Hrepx.
  { apply representable_pos; [lia|].
    apply representable_pos in Hrepy; lia. }
  rewrite (ln_ge_one_value x), (ln_ge_one_value y) by (assumption || lia).
  do 2 eexists. split; [reflexivity|]. split; [reflexivity|].
  pose proof (lnMantissa_range x Hx) as Hmx.
  pose proof (lnMantissa_range y ltac:(lia)) as Hmy.
  pose proof ln2_pos as Hln2. pose proof lnValue_band as Hband.
  destruct (Z.eq_dec (Z.log2 x) (Z.log2 y)) as [Heq|Hne].
  - assert (lnExponent x = lnExponent y) as Hk by (unfold lnExponent; lia).
    assert (lnMantissa x <= lnMantissa y) as Hm.
    { unfold lnMantissa. rewrite Hk. apply Z.div_le_mono; [|lia].
      apply Z.pow_pos_nonneg; [lia|].
      rewrite <- Hk. apply lnExponent_nonneg. lia. }
    pose proof (lnValue_monotone _ _ (proj1 Hmx) Hm ltac:(lia)).
    rewrite Hk. lia.
  - assert (lnExponent x + 1 <= lnExponent y) as Hk
      by (unfold lnExponent; lia).
    pose proof (lnValue_monotone (lnMantissa x) (2 ^ 129)
                  (proj1 Hmx) ltac:(lia) ltac:(lia)) as H1.
    pose proof (lnValue_monotone (2 ^ 128) (lnMantissa y)
                  ltac:(lia) (proj1 Hmy) ltac:(lia)) as H2.
    assert ((lnExponent x + 1) * ln2 <= lnExponent y * ln2) as H3
      by (apply Z.mul_le_mono_nonneg_r; lia).
    lia.
Qed.

Lemma ln_double_ge_one (x : Z) :
  2 ^ 128 <= x -> representable (2 * x) ->
  exists v, ln x = Ok v /\ ln (2 * x) = Ok (v + ln2).
Proof.
  intros Hx Hrep2.
  assert (Z.log2 (2 * x) = Z.log2 x + 1) as Hlog
    by (rewrite Z.log2_double by lia; lia).
  assert (representable x) as Hrep.
  { apply representable_pos; [lia|].
    apply representable_pos in Hrep2; lia. }
  pose proof (lnExponent_nonneg x Hx) as Hk.
  assert (lnExponent (2 * x) = lnExponent x + 1) as Hk2
    by (unfold lnExponent; lia).
  assert (lnMantissa (2 * x) = lnMantissa x) as Hm.
  { unfold lnMantissa. rewrite Hk2, Z.pow_add_r, Z.pow_1_r by lia.
    rewrite (Z.mul_comm (2 ^ lnExponent x) 2).
    apply Z.div_mul_cancel_l; [|lia].
    apply Z.pow_nonzero; lia. }
  rewrite (ln_ge_one_value x), (ln_ge_one_value (2 * x))
    by (assumption || lia).
  rewrite Hk2, Hm. eexists. split; [reflexivity|]. f_equal. ring.
Qed.

(** ** The rational function on a shifted-up argument

    Below one the exponent is negative, its conversion to [uint] wraps
    around, and the left shift is by almost [2^64] bits instead of by the
    magnitude of the exponent.  The value such a shift would have, if it
    could be allocated, is far outside the range from one to two. *)

Lemma horner_huge_gap (x rn rd cn cd : Z) :
  2 ^ 400 <= x -> 0 <= rd -> 2 ^ 100 <= rn - rd ->
  - 2 ^ 140 <= cn - cd -> 0 <= cd ->
  0 <= math.horner x rd cd
  /\ 2 ^ 100 <= math.horner x rn cn - math.horner x rd cd.
Proof.
  intros Hx Hrd Hgap Hc Hcd. rewrite !horner_eq.
  assert (0 <= rd * x / 2 ^ 128) by (apply Z.div_pos; nia).
  split; [lia|].
  pose proof (div_sub_bounds (rn * x) (rd * x) (2 ^ 128) ltac:(lia)) as [Hd _].
  assert (2 ^ 500 <= rn * x - rd * x) as Hbig.
  { replace (rn * x - rd * x) with ((rn - rd) * x) by ring.
    change (2 ^ 500) with (2 ^ 100 * 2 ^ 400).
    apply Z.mul_le_mono_nonneg; lia. }
  assert (2 ^ 500 / 2 ^ 128 <= (rn * x - rd * x) / 2 ^ 128)
    by (apply Z.div_le_mono; lia).
  change (2 ^ 500 / 2 ^ 128) with (2 ^ 372) in *. lia.
Qed.

Lemma evalPoly_huge_gap (x : Z) (ncs dcs : list Z) :
  2 ^ 400 <= x ->
  Forall2 (fun cn cd => - 2 ^ 140 <= cn - cd /\ 0 <= cd) ncs dcs ->
  forall rn rd : Z,
    0 <= rd -> 2 ^ 100 <= rn - rd ->
    0 <= evalPoly x dcs rd
    /\ 2 ^ 100 <= evalPoly x ncs rn - evalPoly x dcs rd.
Proof.
  intros Hx Hcs.
  induction Hcs as [|cn cd ncs dcs [Hc Hcd] _ IH]; intros rn rd Hrd Hgap.
  - now split.
  - destruct (horner_huge_gap x rn rd cn cd Hx Hrd Hgap Hc Hcd) as [H1 H2].
    exact (IH _ _ H1 H2).
Qed.

Lemma lnValue_huge_arg (x : Z) : 2 ^ 400 <= x -> 2 ^ 128 <= lnValue x.
Proof.
  intros Hx.
  pose proof (lnDenom_nonneg_arg x ltac:(lia)) as Hd.
  assert (2 ^ 100 <= lnNum x - lnDenom x) as Hgap.
  { unfold lnNum, lnDenom.
    apply (evalPoly_huge_gap x (tl lnNumCoef) (tl lnDenomCoef) Hx).
    - cbn [tl lnNumCoef lnDenomCoef]. repeat constructor; lia.
    - cbn [hd lnDenomCoef]. lia.
    - cbn [hd lnNumCoef lnDenomCoef]. lia. }
  unfold lnValue. apply Z.div_le_lower_bound; nia.
Qed.

(** The value the rational function takes on a shifted-up argument: at
    least one, where a logarithm of a number below one is negative. *)
Lemma lnBetweenOneAndTwo_huge_arg (x : Z) :
  2 ^ 400 <= x ->
  exists v, lnBetweenOneAndTwo x = Ok v /\ 2 ^ 128 <= v.
Proof.
  intros Hx. exists (lnValue x).
  rewrite lnBetweenOneAndTwo_nonneg_arg by lia.
  split; [reflexivity|]. now apply lnValue_huge_arg.
Qed.

(** ** [ln] on a 32-bit build *)

Lemma uint32_small (n : Z) : 0 <= n < 2 ^ 32 -> uint32 n = n.
Proof. intros Hn. unfold uint32. now apply Z.mod_small. Qed.

Lemma lnBetweenOneAndTwo_zero :
  lnBetweenOneAndTwo 0 = Ok (- 1563932590352680681114104005183375350999).
Proof. vm_compute. reflexivity. Qed.

Lemma ln_zero :
  ln 0 = Ok (- 129 * ln2 - 1563932590352680681114104005183375350999).
Proof.
  destruct lnShift_zero as [_ Hk].
  rewrite ln_unfold, lnArg_zero. cbn [rbind].
  rewrite lnBetweenOneAndTwo_zero. cbn [rbind]. rewrite Hk.
  reflexivity.
Qed.

(** At least one, the two builds agree, as long as the exponent fits an
    [int] of 32 bits. *)
Lemma ln32_ge_one (z : Z) :
  2 ^ 128 <= z -> big.BitLen z < 2 ^ 31 -> ln32 z = ln z.
Proof.
  intros Hz Hlen.
  rewrite ln_ge_one by lia. unfold ln32.
  apply (lnWith_ge_one uint32 (2 ^ 31) z); [|lia|exact Hz|].
  - intros n Hn. apply uint32_small. lia.
  - rewrite BitLen_pos in Hlen by lia. unfold lnExponent. lia.
Qed.

(** Below one, the negative exponent wraps around to a count of almost
    [2^32], which [int64] reads as positive: the argument is shifted right
    by it, to zero, and the count is taken for the exponent. *)
Lemma ln32_below_one (z : Z) :
  0 <= z < 2 ^ 128 ->
  ln32 z = Ok ((2 ^ 32 + (big.BitLen z - 129)) * ln2
               - 1563932590352680681114104005183375350999).
Proof.
  intros Hz.
  assert (0 <= big.BitLen z <= 128) as Hlen.
  { unfold big.BitLen. destruct (Z.eqb_spec z 0); [lia|].
    rewrite Z.abs_eq by lia.
    assert (Z.log2 z < 128) by (apply Z.log2_lt_pow2; lia).
    pose proof (Z.log2_nonneg z). lia. }
  unfold ln32, lnWith.
  set (e := big.BitLen z - 129).
  replace (big.BitLen z - 1 - math.Precision) with e
    by (unfold e, math.Precision; lia).
  assert (- 129 <= e <= - 1) as He by (unfold e; lia).
  clearbody e. clear Hlen.
  assert (uint32 e = 2 ^ 32 + e) as ->.
  { unfold uint32.
    replace e with (2 ^ 32 + e + (- 1) * 2 ^ 32) at 1 by ring.
    rewrite Z.mod_add by lia. apply Z.mod_small. lia. }
  rewrite int64_small by lia.
  rewrite Rsh_Precision, Lsh_Precision.
  unfold big.NewInt, big.Mul, big.Sum, big.GreaterThan, big.Zero.
  replace ((2 ^ 32 + e) * 2 ^ 128 * ln2 / 2 ^ 128) with ((2 ^ 32 + e) * ln2).
  2:{ replace ((2 ^ 32 + e) * 2 ^ 128 * ln2)
        with ((2 ^ 32 + e) * ln2 * 2 ^ 128) by ring.
      now rewrite Z.div_mul by lia. }
  destruct (Z.gtb_spec ((2 ^ 32 + e) * 2 ^ 128) 0) as [_|Hk]; [|lia].
  cbn [rbind].
  assert (big.Rsh z (2 ^ 32 + e) = 0) as ->.
  { unfold big.Rsh. rewrite Z.shiftr_div_pow2 by lia.
    apply Z.div_small.
    assert (2 ^ 128 <= 2 ^ (2 ^ 32 + e)) by (apply Z.pow_le_mono_r; lia).
    lia. }
  rewrite lnBetweenOneAndTwo_zero. cbn [rbind].
  apply f_equal. ring.
Qed.

(** ** Pointers that are nil, and what a call leaves in the store *)

Lemma NextEstimate_nil (h : store) (f : AlphaBetaFilter) (obs d : Z) :
  h !! prevEstimate f = None ->
  NextEstimate f obs d h = (Panic NilDereference, h).
Proof.
  intros Hnil. unfold NextEstimate, bind, deref. now rewrite Hnil.
Qed.

Lemma ExtrapolatedCumSumOfRatio_nil_num (h : store) (delta rs : Z)
    (pn pd : loc) :
  h !! pn = None ->
  ExtrapolatedCumSumOfRatio delta rs pn pd h = (Panic NilDereference, h).
Proof.
  intros Hnil. unfold ExtrapolatedCumSumOfRatio.
  unfold bind at 1, deref at 1. now rewrite Hnil.
Qed.

Lemma ExtrapolatedCumSumOfRatio_nil_denom (h : store) (delta rs : Z)
    (pn pd : loc) (num : FilterEstimate) :
  h !! pn = Some num -> h !! pd = None ->
  ExtrapolatedCumSumOfRatio delta rs pn pd h = (Panic NilDereference, h).
Proof.
  intros Hn Hnil. unfold ExtrapolatedCumSumOfRatio.
  unfold bind at 1, deref at 1. rewrite Hn.
  unfold bind at 1, deref at 1. now rewrite Hnil.
Qed.

Lemma lookup_new_cell (h : store) (e : FilterEstimate) :
  (h ++ [e]) !! length h = Some e.
Proof. now apply list_lookup_middle. Qed.

Lemma lookup_old_cell (h : store) (e e' : FilterEstimate) (l : loc) :
  h !! l = Some e -> (h ++ [e']) !! l = Some e.
Proof. intros Hl. now apply lookup_app_l_Some. Qed.

Lemma lookup_end (h : store) : h !! length h = None.
Proof. apply lookup_ge_None_2. lia. Qed.

(** A call of [NextEstimate] leaves the store as it was, or with one cell
    more at its end. *)
Lemma NextEstimate_store (h : store) (f : AlphaBetaFilter) (obs d : Z) :
  (exists p, NextEstimate f obs d h = (Panic p, h))
  \/ (exists e prev,
        h !! prevEstimate f = Some prev
        /\ NextEstimate f obs d h = (Ok (length h), h ++ [e])).
Proof.
  destruct (h !! prevEstimate f) as [prev|] eqn:Hprev.
  - rewrite (NextEstimate_run h f prev) by assumption.
    destruct (big.Div _ _) as [v|p]; [right|left]; eauto.
  - left. rewrite NextEstimate_nil by assumption. eauto.
Qed.

(** * The claims *)

(** C1: for every previous estimate, gains, Q.0 observation and
    [epochDelta > 0], [NextEstimate] returns a new estimate whose position is
    the previous position extrapolated by [epochDelta] times the previous
    velocity and revised by [alpha] times the residual, and whose velocity is
    the previous velocity revised by [beta] times the residual over
    [epochDelta]; every product of two Q.128 values is rescaled by 128 bits
    to the right. *)
Theorem NextEstimate_revises (h : store) (f : AlphaBetaFilter)
    (prev : FilterEstimate) (observation epochDelta : Z) :
  h !! prevEstimate f = Some prev ->
  0 < epochDelta ->
  NextEstimate f observation epochDelta h =
    (Ok (length h),
     h ++ [ revised (alpha f) (beta f) prev observation epochDelta ])
  /\ extrapolated prev epochDelta =
       PositionEstimate prev + epochDelta * VelocityEstimate prev
  /\ residual prev observation epochDelta =
       observation * 2 ^ 128
       - (PositionEstimate prev + epochDelta * VelocityEstimate prev)
  /\ PositionEstimate
       (revised (alpha f) (beta f) prev observation epochDelta) =
       extrapolated prev epochDelta
       + alpha f * residual prev observation epochDelta / 2 ^ 128
  /\ VelocityEstimate
       (revised (alpha f) (beta f) prev observation epochDelta) =
       VelocityEstimate prev
       + beta f * residual prev observation epochDelta / 2 ^ 128 / epochDelta.
Proof.
  intros Hprev Hd. split; [now apply NextEstimate_pos|].
  split; [apply extrapolated_exact|].
  split; [|split; reflexivity].
  unfold residual. now rewrite extrapolated_exact.
Qed.

Lemma NextEstimate_revises_witness :
  NextEstimate exampleFilter 10 2 exampleStore =
    (Ok 1%nat,
     exampleStore
       ++ [ revised DefaultAlpha DefaultBeta
              {| PositionEstimate := 5 * 2 ^ 128;
                 VelocityEstimate := 3 * 2 ^ 127 |} 10 2 ]).
Proof.
  apply (NextEstimate_revises exampleStore exampleFilter
           {| PositionEstimate := 5 * 2 ^ 128;
              VelocityEstimate := 3 * 2 ^ 127 |} 10 2);
    [reflexivity|lia].
Defined.

(** C5: with [alpha = 0] and [beta = 0] and [epochDelta > 0], the new
    position is the previous position plus [epochDelta] times the previous
    velocity, and the velocity is unchanged. *)
Theorem NextEstimate_dead_reckoning (h : store) (f : AlphaBetaFilter)
    (prev : FilterEstimate) (observation epochDelta : Z) :
  h !! prevEstimate f = Some prev ->
  alpha f = 0 -> beta f = 0 ->
  0 < epochDelta ->
  NextEstimate f observation epochDelta h =
    (Ok (length h),
     h ++ [ {| PositionEstimate :=
                 PositionEstimate prev + epochDelta * VelocityEstimate prev;
               VelocityEstimate := VelocityEstimate prev |} ]).
Proof.
  intros Hprev Ha Hb Hd.
  rewrite (NextEstimate_pos h f prev) by assumption.
  unfold revised. rewrite Ha, Hb, extrapolated_exact.
  rewrite !Z.mul_0_l. unfold rescale.
  rewrite (Z.div_0_l (2 ^ 128)) by lia. rewrite Z.div_0_l by lia.
  now rewrite !Z.add_0_r.
Qed.

Lemma NextEstimate_dead_reckoning_witness :
  NextEstimate (LoadFilter 0%nat 0 0) 10 2 exampleStore =
    (Ok 1%nat,
     exampleStore
       ++ [ {| PositionEstimate := 5 * 2 ^ 128 + 2 * (3 * 2 ^ 127);
               VelocityEstimate := 3 * 2 ^ 127 |} ]).
Proof.
  apply (NextEstimate_dead_reckoning exampleStore (LoadFilter 0%nat 0 0)
           {| PositionEstimate := 5 * 2 ^ 128;
              VelocityEstimate := 3 * 2 ^ 127 |} 10 2);
    [reflexivity|reflexivity|reflexivity|lia].
Defined.

(** C6: when [epochDelta > 0] the divisor [deltaT] of the velocity revision
    is not zero and [NextEstimate] cannot panic on a division by zero; when
    [epochDelta = 0] the divisor is zero, and the call panics on it as soon
    as the previous estimate can be read. *)
Theorem NextEstimate_divisor (h : store) (f : AlphaBetaFilter)
    (observation epochDelta : Z) :
  (0 < epochDelta ->
     big.Lsh (big.NewInt epochDelta) math.Precision <> 0
     /\ fst (NextEstimate f observation epochDelta h) <> Panic DivisionByZero)
  /\ (epochDelta = 0 ->
        big.Lsh (big.NewInt epochDelta) math.Precision = 0
        /\ (is_Some (h !! prevEstimate f) ->
            fst (NextEstimate f observation epochDelta h)
            = Panic DivisionByZero)).
Proof.
  split.
  - intros Hd. split.
    + rewrite Lsh_Precision. unfold big.NewInt. lia.
    + destruct (h !! prevEstimate f) as [prev|] eqn:Hprev.
      * now rewrite (NextEstimate_pos h f prev) by assumption.
      * now rewrite NextEstimate_nil by assumption.
  - intros ->. split; [reflexivity|].
    intros [prev Hprev].
    now rewrite (NextEstimate_run h f prev) by assumption.
Qed.

Lemma NextEstimate_divisor_witness :
  (big.Lsh (big.NewInt 2) math.Precision <> 0
   /\ fst (NextEstimate exampleFilter 10 2 exampleStore)
      <> Panic DivisionByZero)
  /\ (big.Lsh (big.NewInt 0) math.Precision = 0
      /\ fst (NextEstimate exampleFilter 10 0 exampleStore)
         = Panic DivisionByZero).
Proof.
  split.
  - apply (NextEstimate_divisor exampleStore exampleFilter 10 2). lia.
  - destruct (proj2 (NextEstimate_divisor exampleStore exampleFilter 10 0)
                eq_refl) as [H0 Hp].
    split; [exact H0|]. apply Hp. eexists. reflexivity.
Defined.

(** C8: [InitialEstimate] returns an estimate with position and velocity
    zero; [NextEstimate] never writes to the estimate it reads, nor to any
    other cell of the store: what it returns is a cell that was not there
    before. *)
Theorem NextEstimate_frame :
  (forall h : store,
      observe (InitialEstimate h)
      = Ok (Some {| PositionEstimate := 0; VelocityEstimate := 0 |})
      /\ forall l e, h !! l = Some e -> snd (InitialEstimate h) !! l = Some e)
  /\ (forall (f : AlphaBetaFilter) (observation epochDelta : Z) (h : store),
        (forall l e,
            h !! l = Some e ->
            snd (NextEstimate f observation epochDelta h) !! l = Some e)
        /\ snd (NextEstimate f observation epochDelta h) !! prevEstimate f
           = h !! prevEstimate f
        /\ (forall l,
              fst (NextEstimate f observation epochDelta h) = Ok l ->
              h !! l = None
              /\ l <> prevEstimate f
              /\ is_Some
                   (snd (NextEstimate f observation epochDelta h) !! l))).
Proof.
  split.
  - intros h. split.
    + unfold InitialEstimate, alloc, observe. now rewrite lookup_new_cell.
    + intros l e Hl. now apply lookup_old_cell.
  - intros f obs d h.
    destruct (NextEstimate_store h f obs d)
      as [[p ->]|(e & prev & Hprev & ->)]; cbn [fst snd].
    + split; [auto|]. split; [reflexivity|]. intros l [=].
    + split; [intros l e' Hl; now apply lookup_old_cell|].
      split; [rewrite Hprev; now apply lookup_old_cell|].
      intros l [= <-]. split; [apply lookup_end|].
      split.
      * intros Heq. rewrite <- Heq, lookup_end in Hprev. discriminate.
      * rewrite lookup_new_cell. eauto.
Qed.

Lemma NextEstimate_frame_witness :
  snd (NextEstimate exampleFilter 10 2 exampleStore) !! 0%nat
  = exampleStore !! 0%nat.
Proof.
  apply (proj2 NextEstimate_frame exampleFilter 10 2 exampleStore).
Defined.

(** C9: for every integer [a], negative ones included, and every shift
    count [k], shifting [a] left and then right by [k] gives [a] back. *)
Theorem Rsh_Lsh_roundtrip (a k : Z) :
  0 <= k -> big.Rsh (big.Lsh a k) k = a.
Proof. apply Rsh_Lsh. Qed.

Lemma Rsh_Lsh_roundtrip_witness :
  0 <= 128 /\ big.Rsh (big.Lsh (-5) 128) 128 = -5.
Proof.
  split; [lia|]. apply (Rsh_Lsh_roundtrip (-5) 128). lia.
Defined.

(** C2: [ExtrapolatedCumSumOfRatio] has exactly two regimes, selected by the
    strict comparison of the rescaled square of the denominator's velocity
    with the epsilon constant: above it the closed form with the logarithms
    of the denominator's trajectory at the two ends of the interval,
    otherwise the midpoint rule with the numerator at the middle of the
    interval over the denominator's position. *)
Theorem ExtrapolatedCumSumOfRatio_regimes (h : store)
    (delta relativeStart : Z) (estimateNum estimateDenom : loc)
    (num denom : FilterEstimate) :
  h !! estimateNum = Some num ->
  h !! estimateDenom = Some denom ->
  squaredVelocity denom
  = VelocityEstimate denom * VelocityEstimate denom / 2 ^ 128
  /\ trajectory denom relativeStart
     = PositionEstimate denom + relativeStart * VelocityEstimate denom
  /\ trajectory denom (relativeStart + delta)
     = PositionEstimate denom
       + (relativeStart + delta) * VelocityEstimate denom
  /\ midpoint delta relativeStart
     = relativeStart * 2 ^ 128 + delta * 2 ^ 127
  /\ (ExtrapolatedCumSumRatioEpsilon < squaredVelocity denom ->
      ExtrapolatedCumSumOfRatio delta relativeStart estimateNum estimateDenom h
      = (closedForm delta relativeStart num denom, h))
  /\ (squaredVelocity denom <= ExtrapolatedCumSumRatioEpsilon ->
      ExtrapolatedCumSumOfRatio delta relativeStart estimateNum estimateDenom h
      = (midpointRule delta relativeStart num denom, h)).
Proof.
  intros Hn Hd.
  split; [reflexivity|].
  split; [apply trajectory_exact|].
  split; [apply trajectory_exact|].
  split.
  { unfold midpoint, toQ128. f_equal.
    change (2 ^ 128) with (2 ^ 127 * 2). rewrite Z.mul_assoc.
    apply Z.div_mul. lia. }
  rewrite (ExtrapolatedCumSumOfRatio_run h delta relativeStart
             estimateNum estimateDenom num denom Hn Hd).
  unfold cumSumOfRatio.
  split; intros Hcmp.
  - destruct (Z.gtb_spec (squaredVelocity denom)
                ExtrapolatedCumSumRatioEpsilon); [reflexivity|lia].
  - destruct (Z.gtb_spec (squaredVelocity denom)
                ExtrapolatedCumSumRatioEpsilon); [lia|reflexivity].
Qed.

Lemma ExtrapolatedCumSumOfRatio_regimes_witness :
  ExtrapolatedCumSumOfRatio 10 0 0%nat 0%nat exampleStore
  = (closedForm 10 0
       {| PositionEstimate := 5 * 2 ^ 128; VelocityEstimate := 3 * 2 ^ 127 |}
       {| PositionEstimate := 5 * 2 ^ 128; VelocityEstimate := 3 * 2 ^ 127 |},
     exampleStore).
Proof.
  apply (ExtrapolatedCumSumOfRatio_regimes exampleStore 10 0 0%nat 0%nat
           {| PositionEstimate := 5 * 2 ^ 128;
              VelocityEstimate := 3 * 2 ^ 127 |}
           {| PositionEstimate := 5 * 2 ^ 128;
              VelocityEstimate := 3 * 2 ^ 127 |});
    reflexivity.
Defined.

(** C7: when the denominator's position is not zero whenever the rescaled
    squared velocity of the denominator is at most epsilon,
    [ExtrapolatedCumSumOfRatio] divides by zero nowhere.  In the closed form
    the last divisor is above epsilon, which is positive, and the divisor
    inside [ln] is never zero: the call returns when the two ends of the
    denominator's trajectory are zero or at least one in magnitude, and
    otherwise the left shift of [ln] fails to allocate.  In the other regime
    the divisor is the denominator's position, and a zero position there
    does make the call panic on the division. *)
Theorem ExtrapolatedCumSumOfRatio_divisors (h : store)
    (delta relativeStart : Z) (estimateNum estimateDenom : loc)
    (num denom : FilterEstimate) :
  h !! estimateNum = Some num ->
  h !! estimateDenom = Some denom ->
  representable (trajectory denom relativeStart) ->
  representable (trajectory denom (relativeStart + delta)) ->
  0 < ExtrapolatedCumSumRatioEpsilon
  /\ ((squaredVelocity denom <= ExtrapolatedCumSumRatioEpsilon ->
       PositionEstimate denom <> 0) ->
      fst (ExtrapolatedCumSumOfRatio delta relativeStart
             estimateNum estimateDenom h) <> Panic DivisionByZero
      /\ ((exists v,
              fst (ExtrapolatedCumSumOfRatio delta relativeStart
                     estimateNum estimateDenom h) = Ok v)
          \/ fst (ExtrapolatedCumSumOfRatio delta relativeStart
                    estimateNum estimateDenom h) = Panic LenOutOfRange)
      /\ ((ExtrapolatedCumSumRatioEpsilon < squaredVelocity denom ->
           lnShiftFits (trajectory denom relativeStart)
           /\ lnShiftFits (trajectory denom (relativeStart + delta))) ->
          exists v,
            fst (ExtrapolatedCumSumOfRatio delta relativeStart
                   estimateNum estimateDenom h) = Ok v)
      /\ (ExtrapolatedCumSumRatioEpsilon < squaredVelocity denom ->
          ~ (lnShiftFits (trajectory denom relativeStart)
             /\ lnShiftFits (trajectory denom (relativeStart + delta))) ->
          fst (ExtrapolatedCumSumOfRatio delta relativeStart
                 estimateNum estimateDenom h) = Panic LenOutOfRange))
  /\ (squaredVelocity denom <= ExtrapolatedCumSumRatioEpsilon ->
      PositionEstimate denom = 0 ->
      fst (ExtrapolatedCumSumOfRatio delta relativeStart
             estimateNum estimateDenom h) = Panic DivisionByZero).
Proof.
  intros Hn Hd Hra Hrb.
  rewrite (ExtrapolatedCumSumOfRatio_run h delta relativeStart
             estimateNum estimateDenom num denom Hn Hd).
  cbn [fst]. unfold cumSumOfRatio.
  assert (0 < ExtrapolatedCumSumRatioEpsilon) as Heps by reflexivity.
  split; [exact Heps|]. split.
  - intros Hpre.
    destruct (Z.gtb_spec (squaredVelocity denom)
                ExtrapolatedCumSumRatioEpsilon) as [Hgt|Hle].
    + unfold closedForm.
      destruct (ln_outcomes _ Hra) as [[lnA HA]|HA].
      * destruct (ln_outcomes _ Hrb) as [[lnB HB]|HB].
        -- rewrite HA, HB. cbn [rbind].
           match goal with
           | |- context [big.Div ?a ?b] =>
               destruct (Div_nonzero a b) as [q ->]; [lia|]
           end.
           split; [discriminate|]. split; [left; eauto|].
           split; [intros _; eauto|].
           intros _ Hnot. elim Hnot.
           split; [exact (ln_Ok_fits _ _ HA)|exact (ln_Ok_fits _ _ HB)].
        -- rewrite HA, HB. cbn [rbind].
           split; [discriminate|]. split; [now right|].
           split; [|reflexivity].
           intros Hfit. destruct (Hfit Hgt) as [_ Fb].
           destruct (ln_returns _ Hrb Fb) as [v Hv]. congruence.
      * rewrite HA. cbn [rbind].
        split; [discriminate|]. split; [now right|].
        split; [|reflexivity].
        intros Hfit. destruct (Hfit Hgt) as [Fa _].
        destruct (ln_returns _ Hra Fa) as [v Hv]. congruence.
    + unfold midpointRule.
      destruct (Div_nonzero
                  ((PositionEstimate num
                    + rescale (VelocityEstimate num
                               * midpoint delta relativeStart))
                   * toQ128 delta)
                  (PositionEstimate denom) (Hpre Hle)) as [q ->].
      cbn [rbind].
      split; [discriminate|]. split; [left; eauto|].
      split; [intros _; eauto|]. intros Hgt. lia.
  - intros Hle Hzero.
    destruct (Z.gtb_spec (squaredVelocity denom)
                ExtrapolatedCumSumRatioEpsilon) as [Hgt|_]; [lia|].
    unfold midpointRule. rewrite Hzero. reflexivity.
Qed.

Lemma ExtrapolatedCumSumOfRatio_divisors_witness :
  fst (ExtrapolatedCumSumOfRatio 10 0 0%nat 0%nat exampleStore)
  <> Panic DivisionByZero.
Proof.
  refine (proj1 (proj1 (proj2
    (ExtrapolatedCumSumOfRatio_divisors exampleStore 10 0 0%nat 0%nat
       {| PositionEstimate := 5 * 2 ^ 128; VelocityEstimate := 3 * 2 ^ 127 |}
       {| PositionEstimate := 5 * 2 ^ 128; VelocityEstimate := 3 * 2 ^ 127 |}
       _ _ _ _)) _)).
  - reflexivity.
  - reflexivity.
  - vm_compute. reflexivity.
  - vm_compute. reflexivity.
  - intros _. vm_compute. discriminate.
Defined.

(** What a call returns is a function of its arguments and of the
    estimates its pointers lead to: nothing else in the store plays a
    part. *)
Lemma results_ignore_unread_cells :
  (forall (f : AlphaBetaFilter) (observation epochDelta : Z) (h1 h2 : store),
      h1 !! prevEstimate f = h2 !! prevEstimate f ->
      observe (NextEstimate f observation epochDelta h1)
      = observe (NextEstimate f observation epochDelta h2))
  /\ (forall (delta relativeStart : Z) (estimateNum estimateDenom : loc)
             (h1 h2 : store),
        h1 !! estimateNum = h2 !! estimateNum ->
        h1 !! estimateDenom = h2 !! estimateDenom ->
        fst (ExtrapolatedCumSumOfRatio delta relativeStart
               estimateNum estimateDenom h1)
        = fst (ExtrapolatedCumSumOfRatio delta relativeStart
                 estimateNum estimateDenom h2)).
Proof.
  split.
  - intros f obs d h1 h2 Heq.
    destruct (h2 !! prevEstimate f) as [prev|] eqn:H2.
    + rewrite (NextEstimate_run h1 f prev), (NextEstimate_run h2 f prev)
        by assumption.
      destruct (big.Div _ _) as [v|p]; [|reflexivity].
      unfold observe. now rewrite !lookup_new_cell.
    + now rewrite !NextEstimate_nil by assumption.
  - intros delta rs pn pd h1 h2 Hn Hd.
    destruct (h2 !! pn) as [num|] eqn:H2n.
    + destruct (h2 !! pd) as [denom|] eqn:H2d.
      * now rewrite
          (ExtrapolatedCumSumOfRatio_run h1 delta rs pn pd num denom),
          (ExtrapolatedCumSumOfRatio_run h2 delta rs pn pd num denom)
          by assumption.
      * now rewrite
          (ExtrapolatedCumSumOfRatio_nil_denom h1 delta rs pn pd num),
          (ExtrapolatedCumSumOfRatio_nil_denom h2 delta rs pn pd num)
          by assumption.
    + now rewrite !ExtrapolatedCumSumOfRatio_nil_num by assumption.
Qed.

(** Zero reaches [ln] from the public function: a denominator at position
    zero with velocity one is in the closed-form regime, and its trajectory
    at [relativeStart = 0] is zero. *)
Lemma ln_zero_reachable :
  ExtrapolatedCumSumRatioEpsilon
  < squaredVelocity
      {| PositionEstimate := 0; VelocityEstimate := 2 ^ 128 |}
  /\ trajectory
       {| PositionEstimate := 0; VelocityEstimate := 2 ^ 128 |} 0
     = 0.
Proof. split; vm_compute; reflexivity. Qed.

(** C10: the result of [ln] depends on the width of the platform's [uint].
    On one half the exponent is [-1]: a 64-bit build converts it to
    [2^64 - 1] and panics on the left shift by that count, a 32-bit build
    converts it to [2^32 - 1], shifts right to zero and returns
    [(2^32 - 1) * ln2] plus the rational function at zero.  On zero both
    builds return, and not the same number. *)
Theorem ln_differs_with_uint_width :
  uint (big.BitLen (2 ^ 127) - 1 - math.Precision) = 2 ^ 64 - 1
  /\ uint32 (big.BitLen (2 ^ 127) - 1 - math.Precision) = 2 ^ 32 - 1
  /\ ln (2 ^ 127) = Panic LenOutOfRange
  /\ ln32 (2 ^ 127)
     = Ok ((2 ^ 32 - 1) * ln2 - 1563932590352680681114104005183375350999)
  /\ ln 0 = Ok (- 129 * ln2 - 1563932590352680681114104005183375350999)
  /\ ln32 0
     = Ok ((2 ^ 32 - 129) * ln2 - 1563932590352680681114104005183375350999)
  /\ ln 0 <> ln32 0.
Proof.
  assert (ln (2 ^ 127) = Panic LenOutOfRange) as Hhalf.
  { apply ln_panics_small; [lia|]. rewrite Z.abs_eq; lia. }
  assert (ln32 (2 ^ 127)
          = Ok ((2 ^ 32 - 1) * ln2
                - 1563932590352680681114104005183375350999)) as Hhalf32.
  { rewrite ln32_below_one by lia.
    replace (big.BitLen (2 ^ 127)) with 128 by (vm_compute; reflexivity).
    reflexivity. }
  pose proof ln_zero as Hzero.
  assert (ln32 0
          = Ok ((2 ^ 32 - 129) * ln2
                - 1563932590352680681114104005183375350999)) as Hzero32.
  { rewrite ln32_below_one by lia.
    replace (big.BitLen 0) with 0 by reflexivity.
    reflexivity. }
  split; [vm_compute; reflexivity|].
  split; [vm_compute; reflexivity|].
  split; [exact Hhalf|]. split; [exact Hhalf32|].
  split; [exact Hzero|]. split; [exact Hzero32|].
  rewrite Hzero, Hzero32. intros [=].
Qed.

(** What [ln] does on every argument at least one: the exponent [k] is the
    position of the leading bit, the mantissa is the argument shifted right
    by [k], rounded down, and lies in [1, 2); the result is [k * ln2] plus
    the quotient of the two polynomials at the mantissa. *)
Lemma ln_decomposes_ge_one (z : Z) :
  2 ^ 128 <= z -> representable z ->
  0 <= lnExponent z
  /\ 2 ^ 128 <= lnMantissa z < 2 ^ 129
  /\ lnMantissa z * 2 ^ lnExponent z <= z
     < (lnMantissa z + 1) * 2 ^ lnExponent z
  /\ lnBetweenOneAndTwo (lnMantissa z)
     = big.Div (big.Lsh (lnNum (lnMantissa z)) math.Precision)
               (lnDenom (lnMantissa z))
  /\ math.Polyval lnNumCoef (lnMantissa z) = Ok (lnNum (lnMantissa z))
  /\ math.Polyval lnDenomCoef (lnMantissa z) = Ok (lnDenom (lnMantissa z))
  /\ ln z = (let? r := lnBetweenOneAndTwo (lnMantissa z) in
             Ok (lnExponent z * ln2 + r))
  /\ ln z = Ok (lnExponent z * ln2 + lnValue (lnMantissa z)).
Proof.
  intros Hz Hrep.
  split; [now apply lnExponent_nonneg|].
  split; [now apply lnMantissa_range|].
  split; [now apply lnMantissa_bounds|].
  split; [now rewrite lnBetweenOneAndTwo_eq, Lsh_Precision|].
  split; [reflexivity|]. split; [reflexivity|].
  split; [now apply ln_ge_one|now apply ln_ge_one_value].
Qed.

(** An argument below one reaches [ln] from the public function: a
    denominator at position one half with velocity one is in the closed-form
    regime, and its trajectory at [relativeStart = 0] is one half. *)
Lemma ln_below_one_reachable :
  ExtrapolatedCumSumRatioEpsilon
  < squaredVelocity
      {| PositionEstimate := 2 ^ 127; VelocityEstimate := 2 ^ 128 |}
  /\ trajectory
       {| PositionEstimate := 2 ^ 127; VelocityEstimate := 2 ^ 128 |} 0
     = 2 ^ 127.
Proof. split; vm_compute; reflexivity. Qed.

(** A denominator that decreases from three halves to one half over four
    epochs: the public function panics on the shift, not on a division. *)
Lemma ExtrapolatedCumSumOfRatio_below_one :
  fst (ExtrapolatedCumSumOfRatio 4 0 0%nat 1%nat
         [ {| PositionEstimate := 5 * 2 ^ 128;
              VelocityEstimate := 3 * 2 ^ 127 |};
           {| PositionEstimate := 3 * 2 ^ 127;
              VelocityEstimate := - 2 ^ 126 |} ])
  = Panic LenOutOfRange.
Proof. vm_compute. reflexivity. Qed.

(** C3: on [z = 2^127], one half, the decomposition [z = x * 2^k] with
    [1 <= x < 2] has [x = 1] and [k = -1], and [lnBetweenOneAndTwo] of one
    is 878, so that [- ln2 + 878] is expected.  The code converts the
    exponent [-1] to [uint], which gives [2^64 - 1], and shifts [z] left by
    that count: the shift cannot be allocated and [ln] panics.  Were it
    allocated, the rational function would be handed a shifted-up argument
    and give a value of at least one, not 878. *)
Theorem ln_one_half_wraps :
  uint (big.BitLen (2 ^ 127) - 1 - math.Precision) = 2 ^ 64 - 1
  /\ lnBetweenOneAndTwo (2 ^ 128) = Ok 878
  /\ (exists v,
        lnBetweenOneAndTwo (big.Lsh (2 ^ 127) (2 ^ 64 - 1)) = Ok v
        /\ 2 ^ 128 <= v)
  /\ big.LshAlloc (2 ^ 127) (2 ^ 64 - 1) = Panic LenOutOfRange
  /\ ln (2 ^ 127) = Panic LenOutOfRange
  /\ ln (2 ^ 127) <> Ok (- ln2 + 878).
Proof.
  assert (0 <= 2 ^ 64 - 1) as Hnonneg by lia.
  assert (forall n : Z, 400 <= n -> 2 ^ 400 <= 2 ^ 127 * 2 ^ n) as Hbig.
  { intros n Hn.
    assert (2 ^ 400 <= 2 ^ n) by (apply Z.pow_le_mono_r; lia).
    lia. }
  assert (ln (2 ^ 127) = Panic LenOutOfRange) as Hln.
  { apply ln_panics_small; [lia|]. rewrite Z.abs_eq; lia. }
  split; [vm_compute; reflexivity|].
  split; [vm_compute; reflexivity|].
  split.
  { unfold big.Lsh.
    rewrite (Z.shiftl_mul_pow2 (2 ^ 127) (2 ^ 64 - 1) Hnonneg).
    apply lnBetweenOneAndTwo_huge_arg, Hbig. lia. }
  split; [apply LshAlloc_panics; unfold big.maxShift; lia|].
  split; [exact Hln|].
  rewrite Hln. discriminate.
Qed.

(** C4, as stated, fails: [2^129] and [2^129 + 1] have the same mantissa
    and the same logarithm, so [ln] is not strictly increasing. *)
Lemma ln_not_strictly_increasing :
  ~ (forall x y vx vy : Z,
        0 < x -> x < y -> ln x = Ok vx -> ln y = Ok vy -> vx < vy).
Proof.
  intros Hstrict.
  assert (ln (2 ^ 129) = Ok 235865763225513294137944142764154485277) as Hx
    by (vm_compute; reflexivity).
  assert (ln (2 ^ 129 + 1) = Ok 235865763225513294137944142764154485277)
    as Hy by (vm_compute; reflexivity).
  pose proof (Hstrict (2 ^ 129) (2 ^ 129 + 1) _ _
                ltac:(lia) ltac:(lia) Hx Hy).
  lia.
Qed.

(** C4, amended: on arguments at least one, [ln] returns, it does not
    decrease, and [ln (2 * x)] is exactly [ln x + ln2]. *)
Theorem ln_monotone_and_doubling (x y : Z) :
  2 ^ 128 <= x -> x <= y ->
  representable y -> representable (2 * x) ->
  (exists vx vy, ln x = Ok vx /\ ln y = Ok vy /\ vx <= vy)
  /\ (exists v, ln x = Ok v /\ ln (2 * x) = Ok (v + ln2)).
Proof.
  intros Hx Hxy Hrepy Hrep2. split.
  - now apply ln_monotone_ge_one.
  - now apply ln_double_ge_one.
Qed.

Lemma ln_monotone_and_doubling_witness :
  (exists vx vy,
      ln (3 * 2 ^ 127) = Ok vx /\ ln (5 * 2 ^ 128) = Ok vy /\ vx <= vy)
  /\ (exists v, ln (3 * 2 ^ 127) = Ok v
                /\ ln (2 * (3 * 2 ^ 127)) = Ok (v + ln2)).
Proof.
  apply (ln_monotone_and_doubling (3 * 2 ^ 127) (5 * 2 ^ 128));
    [lia|lia|vm_compute; reflexivity|vm_compute; reflexivity].
Defined.

(** * Further properties of the code *)

(** ** [Estimate] *)

(** X1: [Estimate] rounds the position down to an integer, also when it is
    negative, leaves the store as it was, and gives back exactly an
    observation that entered Q.128 by a left shift. *)
Theorem Estimate_rounds_down (h : store) (fe : loc) (e : FilterEstimate) :
  h !! fe = Some e ->
  exists q,
    Estimate fe h = (Ok q, h)
    /\ q * 2 ^ 128 <= PositionEstimate e < (q + 1) * 2 ^ 128
    /\ forall n, PositionEstimate e = big.Lsh n math.Precision -> q = n.
Proof.
  intros He. exists (PositionEstimate e / 2 ^ 128).
  split; [|split].
  - unfold Estimate, bind, deref, ret. rewrite He. now rewrite Rsh_Precision.
  - pose proof (Z.mul_div_le (PositionEstimate e) (2 ^ 128) ltac:(lia)).
    pose proof (Z.mul_succ_div_gt (PositionEstimate e) (2 ^ 128) ltac:(lia)).
    lia.
  - intros n ->. rewrite Lsh_Precision. apply Z.div_mul. lia.
Qed.

Lemma Estimate_rounds_down_witness :
  exists q,
    Estimate 0%nat [ {| PositionEstimate := - 1; VelocityEstimate := 0 |} ]
    = (Ok q, [ {| PositionEstimate := - 1; VelocityEstimate := 0 |} ])
    /\ q * 2 ^ 128 <= - 1 < (q + 1) * 2 ^ 128.
Proof.
  destruct (Estimate_rounds_down
              [ {| PositionEstimate := - 1; VelocityEstimate := 0 |} ] 0%nat
              {| PositionEstimate := - 1; VelocityEstimate := 0 |} eq_refl)
    as (q & Hq & Hb & _).
  exists q. split; [exact Hq|exact Hb].
Defined.

(** ** [NextEstimate] *)

(** X2: with the gain [alpha] equal to one, the new position is the
    observation itself, and [Estimate] of the new estimate returns the
    observation. *)
Theorem NextEstimate_full_gain (h : store) (f : AlphaBetaFilter)
    (prev : FilterEstimate) (observation epochDelta : Z) :
  h !! prevEstimate f = Some prev ->
  alpha f = 2 ^ 128 ->
  0 < epochDelta ->
  exists e,
    NextEstimate f observation epochDelta h = (Ok (length h), h ++ [e])
    /\ PositionEstimate e = observation * 2 ^ 128
    /\ Estimate (length h) (h ++ [e]) = (Ok observation, h ++ [e]).
Proof.
  intros Hprev Ha Hd.
  exists (revised (alpha f) (beta f) prev observation epochDelta).
  assert (PositionEstimate
            (revised (alpha f) (beta f) prev observation epochDelta)
          = observation * 2 ^ 128) as Hpos.
  { unfold revised, residual, rescale, toQ128. cbn [PositionEstimate].
    rewrite Ha, Z.mul_comm, Z.div_mul by lia. ring. }
  split; [now apply NextEstimate_pos|]. split; [exact Hpos|].
  unfold Estimate, bind, deref, ret. rewrite lookup_new_cell.
  rewrite Hpos, Rsh_Precision, Z.div_mul by lia. reflexivity.
Qed.

Lemma NextEstimate_full_gain_witness :
  exists e,
    NextEstimate (LoadFilter 0%nat (2 ^ 128) DefaultBeta) 10 2 exampleStore
    = (Ok 1%nat, exampleStore ++ [e])
    /\ PositionEstimate e = 10 * 2 ^ 128
    /\ Estimate 1%nat (exampleStore ++ [e]) = (Ok 10, exampleStore ++ [e]).
Proof.
  apply (NextEstimate_full_gain exampleStore
           (LoadFilter 0%nat (2 ^ 128) DefaultBeta)
           {| PositionEstimate := 5 * 2 ^ 128;
              VelocityEstimate := 3 * 2 ^ 127 |} 10 2);
    [reflexivity|reflexivity|lia].
Defined.

(** X3: when the observation is exactly the extrapolated position, the
    gains play no part: the new estimate is the extrapolation, with the
    velocity unchanged, for every [epochDelta] other than zero. *)
Theorem NextEstimate_zero_residual (h : store) (f : AlphaBetaFilter)
    (prev : FilterEstimate) (observation epochDelta : Z) :
  h !! prevEstimate f = Some prev ->
  epochDelta <> 0 ->
  observation * 2 ^ 128
  = PositionEstimate prev + epochDelta * VelocityEstimate prev ->
  NextEstimate f observation epochDelta h =
    (Ok (length h),
     h ++ [ {| PositionEstimate := observation * 2 ^ 128;
               VelocityEstimate := VelocityEstimate prev |} ]).
Proof.
  intros Hprev Hd Hobs.
  rewrite (NextEstimate_run h f prev) by assumption.
  assert (residual prev observation epochDelta = 0) as ->.
  { unfold residual. rewrite extrapolated_exact. unfold toQ128. lia. }
  rewrite extrapolated_exact, <- Hobs, !Z.mul_0_r.
  unfold big.Div, toQ128.
  destruct (Z.eqb_spec (epochDelta * 2 ^ 128) 0) as [H0|_]; [lia|].
  rewrite Z.div_0_l by lia. unfold rescale.
  rewrite Z.div_0_l, Z.mul_0_r, !Z.add_0_r by lia. reflexivity.
Qed.

Lemma NextEstimate_zero_residual_witness :
  NextEstimate exampleFilter 8 2 exampleStore =
    (Ok 1%nat,
     exampleStore
       ++ [ {| PositionEstimate := 8 * 2 ^ 128;
               VelocityEstimate := 3 * 2 ^ 127 |} ]).
Proof.
  apply (NextEstimate_zero_residual exampleStore exampleFilter
           {| PositionEstimate := 5 * 2 ^ 128;
              VelocityEstimate := 3 * 2 ^ 127 |} 8 2);
    [reflexivity|lia|reflexivity].
Defined.

(** X4: the first update of a filter loaded on the initial estimate: the
    position becomes [alpha] times the observation and the velocity [beta]
    times the observation over [epochDelta], rounded down. *)
Theorem NextEstimate_first_update (h : store) (a b observation epochDelta : Z) :
  0 < epochDelta ->
  observe ((let! initial := InitialEstimate in
            NextEstimate (LoadFilter initial a b) observation epochDelta) h)
  = Ok (Some {| PositionEstimate := a * observation;
                VelocityEstimate := b * observation / epochDelta |}).
Proof.
  intros Hd. unfold bind at 1. unfold InitialEstimate at 1, alloc at 1.
  set (e0 := {| PositionEstimate := initialPosition;
                VelocityEstimate := initialVelocity |}).
  rewrite (NextEstimate_pos (h ++ [e0]) (LoadFilter (length h) a b) e0
             observation epochDelta (lookup_new_cell h e0) Hd).
  unfold observe. rewrite lookup_new_cell.
  unfold revised, residual. rewrite extrapolated_exact.
  cbn [alpha beta LoadFilter PositionEstimate VelocityEstimate e0].
  unfold initialPosition, initialVelocity, big.Zero, rescale, toQ128.
  rewrite Z.mul_0_r, !Z.add_0_l, Z.sub_0_r.
  rewrite !Z.mul_assoc, !Z.div_mul by lia. reflexivity.
Qed.

Lemma NextEstimate_first_update_witness :
  observe ((let! initial := InitialEstimate in
            NextEstimate (LoadFilter initial DefaultAlpha DefaultBeta) 10 2)
             [])
  = Ok (Some {| PositionEstimate := DefaultAlpha * 10;
                VelocityEstimate := DefaultBeta * 10 / 2 |}).
Proof.
  apply (NextEstimate_first_update [] DefaultAlpha DefaultBeta 10 2). lia.
Defined.

(** X5: a nil previous estimate makes [NextEstimate] panic on the
    dereference, and the store is left as it was.  A negative [epochDelta]
    is not rejected: the call returns an estimate, extrapolated backwards,
    whose velocity is revised by the Euclidean quotient of the rescaled
    residual term by the negative interval. *)
Theorem NextEstimate_negative_delta (h : store) (f : AlphaBetaFilter)
    (prev : FilterEstimate) (observation epochDelta : Z) :
  (h !! prevEstimate f = None ->
   NextEstimate f observation epochDelta h = (Panic NilDereference, h))
  /\ (h !! prevEstimate f = Some prev ->
      epochDelta < 0 ->
      NextEstimate f observation epochDelta h
      = (Ok (length h),
         h ++ [ {| PositionEstimate :=
                     extrapolated prev epochDelta
                     + rescale (alpha f
                                * residual prev observation epochDelta);
                   VelocityEstimate :=
                     VelocityEstimate prev
                     - rescale (beta f
                                * residual prev observation epochDelta)
                       / (- epochDelta) |} ])).
Proof.
  split; [apply NextEstimate_nil|].
  intros Hprev Hd.
  rewrite (NextEstimate_run h f prev) by assumption.
  unfold big.Div, toQ128 at 1 2 3.
  destruct (Z.eqb_spec (epochDelta * 2 ^ 128) 0) as [H0|_]; [lia|].
  rewrite Z.sgn_neg, Z.abs_neq by lia.
  replace (- (epochDelta * 2 ^ 128)) with (2 ^ 128 * - epochDelta) by ring.
  rewrite <- Z.div_div by lia.
  unfold rescale at 3.
  apply f_equal, f_equal.
  apply (f_equal (fun e => [e])).
  apply (f_equal2 mkEstimate); [reflexivity|]. ring.
Qed.

Lemma NextEstimate_negative_delta_witness :
  exists l, fst (NextEstimate exampleFilter 10 (- 3) exampleStore) = Ok l.
Proof.
  rewrite (proj2 (NextEstimate_negative_delta exampleStore exampleFilter
                    {| PositionEstimate := 5 * 2 ^ 128;
                       VelocityEstimate := 3 * 2 ^ 127 |} 10 (- 3))
             eq_refl ltac:(lia)).
  eexists. reflexivity.
Defined.

(** X6: with a gain [alpha] between zero and one and [epochDelta > 0], the
    new position lies between the extrapolated position and the
    observation: the revision never overshoots. *)
Theorem NextEstimate_no_overshoot (h : store) (f : AlphaBetaFilter)
    (prev : FilterEstimate) (observation epochDelta : Z) :
  h !! prevEstimate f = Some prev ->
  0 < epochDelta ->
  0 <= alpha f <= 2 ^ 128 ->
  exists e,
    observe (NextEstimate f observation epochDelta h) = Ok (Some e)
    /\ Z.min (PositionEstimate prev + epochDelta * VelocityEstimate prev)
             (observation * 2 ^ 128)
       <= PositionEstimate e
       <= Z.max (PositionEstimate prev + epochDelta * VelocityEstimate prev)
                (observation * 2 ^ 128).
Proof.
  intros Hprev Hd Ha.
  rewrite (NextEstimate_pos h f prev) by assumption.
  unfold observe. rewrite lookup_new_cell. eexists. split; [reflexivity|].
  unfold revised, residual. cbn [PositionEstimate].
  rewrite extrapolated_exact. unfold toQ128, rescale.
  set (ext := PositionEstimate prev + epochDelta * VelocityEstimate prev).
  set (res := observation * 2 ^ 128 - ext).
  assert (observation * 2 ^ 128 = ext + res) as -> by (unfold res; lia).
  clearbody ext res. clear Hprev.
  destruct (Z.le_gt_cases 0 res) as [Hres|Hres].
  - assert (0 <= alpha f * res / 2 ^ 128) by (apply Z.div_pos; nia).
    assert (alpha f * res / 2 ^ 128 <= res)
      by (apply Z.div_le_upper_bound; nia).
    lia.
  - assert (res <= alpha f * res / 2 ^ 128)
      by (apply Z.div_le_lower_bound; nia).
    assert (alpha f * res / 2 ^ 128 <= 0)
      by (apply Z.div_le_upper_bound; nia).
    lia.
Qed.

Lemma NextEstimate_no_overshoot_witness :
  exists e,
    observe (NextEstimate exampleFilter 10 2 exampleStore) = Ok (Some e)
    /\ Z.min (5 * 2 ^ 128 + 2 * (3 * 2 ^ 127)) (10 * 2 ^ 128)
       <= PositionEstimate e
       <= Z.max (5 * 2 ^ 128 + 2 * (3 * 2 ^ 127)) (10 * 2 ^ 128).
Proof.
  apply (NextEstimate_no_overshoot exampleStore exampleFilter
           {| PositionEstimate := 5 * 2 ^ 128;
              VelocityEstimate := 3 * 2 ^ 127 |} 10 2);
    [reflexivity|lia|vm_compute; split; discriminate].
Defined.

(** X7: with a gain [beta] that is not negative and [epochDelta > 0], the
    velocity moves towards the observation: it does not decrease when the
    observation is at or above the extrapolated position, and does not
    increase when it is at or below. *)
Theorem NextEstimate_velocity_direction (h : store) (f : AlphaBetaFilter)
    (prev : FilterEstimate) (observation epochDelta : Z) :
  h !! prevEstimate f = Some prev ->
  0 < epochDelta ->
  0 <= beta f ->
  exists e,
    observe (NextEstimate f observation epochDelta h) = Ok (Some e)
    /\ (PositionEstimate prev + epochDelta * VelocityEstimate prev
        <= observation * 2 ^ 128 ->
        VelocityEstimate prev <= VelocityEstimate e)
    /\ (observation * 2 ^ 128
        <= PositionEstimate prev + epochDelta * VelocityEstimate prev ->
        VelocityEstimate e <= VelocityEstimate prev).
Proof.
  intros Hprev Hd Hb.
  rewrite (NextEstimate_pos h f prev) by assumption.
  unfold observe. rewrite lookup_new_cell. eexists. split; [reflexivity|].
  unfold revised, residual. cbn [VelocityEstimate].
  rewrite extrapolated_exact. unfold toQ128, rescale.
  set (ext := PositionEstimate prev + epochDelta * VelocityEstimate prev).
  set (res := observation * 2 ^ 128 - ext).
  clearbody ext. clear Hprev.
  split; intros Hcmp.
  - assert (0 <= beta f * res / 2 ^ 128)
      by (apply Z.div_pos; [unfold res; nia|lia]).
    assert (0 <= beta f * res / 2 ^ 128 / epochDelta)
      by (apply Z.div_pos; lia).
    lia.
  - assert (beta f * res / 2 ^ 128 <= 0)
      by (apply Z.div_le_upper_bound; [lia|unfold res; nia]).
    assert (beta f * res / 2 ^ 128 / epochDelta <= 0)
      by (apply Z.div_le_upper_bound; lia).
    lia.
Qed.

Lemma NextEstimate_velocity_direction_witness :
  exists e,
    observe (NextEstimate exampleFilter 10 2 exampleStore) = Ok (Some e)
    /\ 3 * 2 ^ 127 <= VelocityEstimate e.
Proof.
  destruct (NextEstimate_velocity_direction exampleStore exampleFilter
              {| PositionEstimate := 5 * 2 ^ 128;
                 VelocityEstimate := 3 * 2 ^ 127 |} 10 2
              eq_refl ltac:(lia) ltac:(vm_compute; discriminate))
    as (e & He & Hup & _).
  exists e. split; [exact He|]. apply Hup. vm_compute. discriminate.
Defined.

(** X8: [NextEstimate] commutes with a shift of the origin: adding an
    integer [c] to the observation and [c] in Q.128 to the previous position
    adds [c] in Q.128 to the new position and leaves the new velocity as it
    is. *)
Theorem NextEstimate_shift (h h' : store) (f f' : AlphaBetaFilter)
    (prev : FilterEstimate) (observation epochDelta c : Z) :
  h !! prevEstimate f = Some prev ->
  h' !! prevEstimate f'
  = Some {| PositionEstimate := PositionEstimate prev + c * 2 ^ 128;
            VelocityEstimate := VelocityEstimate prev |} ->
  alpha f' = alpha f -> beta f' = beta f ->
  epochDelta <> 0 ->
  exists e,
    observe (NextEstimate f observation epochDelta h) = Ok (Some e)
    /\ observe (NextEstimate f' (observation + c) epochDelta h')
       = Ok (Some {| PositionEstimate := PositionEstimate e + c * 2 ^ 128;
                     VelocityEstimate := VelocityEstimate e |}).
Proof.
  intros Hprev Hprev' Ha Hb Hd.
  rewrite (NextEstimate_run h f prev) by assumption.
  rewrite (NextEstimate_run h' f' _ _ _ Hprev').
  assert (residual
            {| PositionEstimate := PositionEstimate prev + c * 2 ^ 128;
               VelocityEstimate := VelocityEstimate prev |}
            (observation + c) epochDelta
          = residual prev observation epochDelta) as ->.
  { unfold residual. rewrite !extrapolated_exact. unfold toQ128.
    cbn [PositionEstimate VelocityEstimate]. ring. }
  rewrite Ha, Hb.
  destruct (Div_nonzero (beta f * residual prev observation epochDelta)
              (toQ128 epochDelta) ltac:(unfold toQ128; lia)) as [q ->].
  unfold observe. rewrite !lookup_new_cell.
  eexists. split; [reflexivity|].
  cbn [PositionEstimate VelocityEstimate].
  rewrite !extrapolated_exact. cbn [PositionEstimate VelocityEstimate].
  apply f_equal, f_equal. apply (f_equal2 mkEstimate); [ring|reflexivity].
Qed.

Lemma NextEstimate_shift_witness :
  exists e,
    observe (NextEstimate exampleFilter 10 2 exampleStore) = Ok (Some e)
    /\ observe (NextEstimate exampleFilter (10 + 7) 2
                  [ {| PositionEstimate := 5 * 2 ^ 128 + 7 * 2 ^ 128;
                       VelocityEstimate := 3 * 2 ^ 127 |} ])
       = Ok (Some {| PositionEstimate := PositionEstimate e + 7 * 2 ^ 128;
                     VelocityEstimate := VelocityEstimate e |}).
Proof.
  apply (NextEstimate_shift exampleStore
           [ {| PositionEstimate := 5 * 2 ^ 128 + 7 * 2 ^ 128;
                VelocityEstimate := 3 * 2 ^ 127 |} ]
           exampleFilter exampleFilter
           {| PositionEstimate := 5 * 2 ^ 128;
              VelocityEstimate := 3 * 2 ^ 127 |} 10 2 7);
    [reflexivity|reflexivity|reflexivity|reflexivity|lia].
Defined.

(** ** [ExtrapolatedCumSumOfRatio] *)

(** X9: [ExtrapolatedCumSumOfRatio] only reads: whatever it returns, and
    also when it panics, the store is as it was; a nil pointer for either
    estimate makes it panic on the dereference. *)
Theorem ExtrapolatedCumSumOfRatio_reads_only (h : store)
    (delta relativeStart : Z) (estimateNum estimateDenom : loc) :
  snd (ExtrapolatedCumSumOfRatio delta relativeStart
         estimateNum estimateDenom h) = h
  /\ (h !! estimateNum = None \/ h !! estimateDenom = None ->
      fst (ExtrapolatedCumSumOfRatio delta relativeStart
             estimateNum estimateDenom h) = Panic NilDereference).
Proof.
  destruct (h !! estimateNum) as [num|] eqn:Hn.
  - destruct (h !! estimateDenom) as [denom|] eqn:Hd.
    + rewrite (ExtrapolatedCumSumOfRatio_run h delta relativeStart
                 estimateNum estimateDenom num denom Hn Hd).
      split; [reflexivity|]. intros [[=]|[=]].
    + rewrite (ExtrapolatedCumSumOfRatio_nil_denom h delta relativeStart
                 estimateNum estimateDenom num Hn Hd).
      split; reflexivity.
  - rewrite (ExtrapolatedCumSumOfRatio_nil_num h delta relativeStart
               estimateNum estimateDenom Hn).
    split; reflexivity.
Qed.

Lemma ExtrapolatedCumSumOfRatio_reads_only_witness :
  fst (ExtrapolatedCumSumOfRatio 10 0 0%nat 1%nat exampleStore)
  = Panic NilDereference.
Proof.
  apply (ExtrapolatedCumSumOfRatio_reads_only exampleStore 10 0 0%nat 1%nat).
  right. reflexivity.
Defined.

Lemma squaredVelocity_threshold (e : FilterEstimate) :
  ExtrapolatedCumSumRatioEpsilon < squaredVelocity e
  <-> 2 ^ 103 + 2 ^ 24 <= Z.abs (VelocityEstimate e).
Proof.
  unfold squaredVelocity, rescale, ExtrapolatedCumSumRatioEpsilon.
  rewrite <- Z.abs_square.
  pose proof (Z.abs_nonneg (VelocityEstimate e)) as Ha.
  set (a := Z.abs (VelocityEstimate e)) in *. clearbody a.
  split; intros H.
  - destruct (Z.le_gt_cases (2 ^ 103 + 2 ^ 24) a) as [|Hlt]; [assumption|].
    assert (a * a <= (2 ^ 103 + 2 ^ 24 - 1) * (2 ^ 103 + 2 ^ 24 - 1))
      by (apply Z.mul_le_mono_nonneg; lia).
    assert (a * a / 2 ^ 128 < 302231454903657293676544 + 1)
      by (apply Z.div_lt_upper_bound; lia).
    lia.
  - assert ((2 ^ 103 + 2 ^ 24) * (2 ^ 103 + 2 ^ 24) <= a * a)
      by (apply Z.mul_le_mono_nonneg; lia).
    assert (302231454903657293676544 + 1 <= a * a / 2 ^ 128)
      by (apply Z.div_le_lower_bound; lia).
    lia.
Qed.

(** X10: the regime depends on the magnitude of the denominator's velocity
    alone: the closed form is used exactly when that magnitude is at least
    [2^103 + 2^24] in Q.128, a little above [2^-25], and the midpoint rule
    below. *)
Theorem ExtrapolatedCumSumOfRatio_threshold (h : store)
    (delta relativeStart : Z) (estimateNum estimateDenom : loc)
    (num denom : FilterEstimate) :
  h !! estimateNum = Some num ->
  h !! estimateDenom = Some denom ->
  ExtrapolatedCumSumOfRatio delta relativeStart estimateNum estimateDenom h
  = (if 2 ^ 103 + 2 ^ 24 <=? Z.abs (VelocityEstimate denom)
     then closedForm delta relativeStart num denom
     else midpointRule delta relativeStart num denom,
     h).
Proof.
  intros Hn Hd.
  rewrite (ExtrapolatedCumSumOfRatio_run h delta relativeStart
             estimateNum estimateDenom num denom Hn Hd).
  unfold cumSumOfRatio.
  pose proof (squaredVelocity_threshold denom) as Hthr.
  destruct (Z.gtb_spec (squaredVelocity denom)
              ExtrapolatedCumSumRatioEpsilon) as [Hgt|Hle];
    destruct (Z.leb_spec (2 ^ 103 + 2 ^ 24)
                (Z.abs (VelocityEstimate denom))) as [Hv|Hv];
    try reflexivity.
  - apply Hthr in Hgt. lia.
  - apply Hthr in Hv. lia.
Qed.

Lemma ExtrapolatedCumSumOfRatio_threshold_witness :
  ExtrapolatedCumSumOfRatio 10 0 0%nat 0%nat
    [ {| PositionEstimate := 5 * 2 ^ 128;
         VelocityEstimate := - (2 ^ 103 + 2 ^ 24 - 1) |} ]
  = (midpointRule 10 0
       {| PositionEstimate := 5 * 2 ^ 128;
          VelocityEstimate := - (2 ^ 103 + 2 ^ 24 - 1) |}
       {| PositionEstimate := 5 * 2 ^ 128;
          VelocityEstimate := - (2 ^ 103 + 2 ^ 24 - 1) |},
     [ {| PositionEstimate := 5 * 2 ^ 128;
          VelocityEstimate := - (2 ^ 103 + 2 ^ 24 - 1) |} ]).
Proof.
  apply (ExtrapolatedCumSumOfRatio_threshold
           [ {| PositionEstimate := 5 * 2 ^ 128;
                VelocityEstimate := - (2 ^ 103 + 2 ^ 24 - 1) |} ]
           10 0 0%nat 0%nat
           {| PositionEstimate := 5 * 2 ^ 128;
              VelocityEstimate := - (2 ^ 103 + 2 ^ 24 - 1) |}
           {| PositionEstimate := 5 * 2 ^ 128;
              VelocityEstimate := - (2 ^ 103 + 2 ^ 24 - 1) |});
    reflexivity.
Defined.

(** X11: over an interval of length zero the cumulative sum is zero, in
    both regimes, whenever the call can return: a denominator position
    other than zero in the midpoint regime, a denominator trajectory of at
    least one in the closed form. *)
Theorem ExtrapolatedCumSumOfRatio_empty_interval (h : store)
    (relativeStart : Z) (estimateNum estimateDenom : loc)
    (num denom : FilterEstimate) :
  h !! estimateNum = Some num ->
  h !! estimateDenom = Some denom ->
  (squaredVelocity denom <= ExtrapolatedCumSumRatioEpsilon ->
   PositionEstimate denom <> 0) ->
  (ExtrapolatedCumSumRatioEpsilon < squaredVelocity denom ->
   2 ^ 128 <= trajectory denom relativeStart
   /\ representable (trajectory denom relativeStart)) ->
  ExtrapolatedCumSumOfRatio 0 relativeStart estimateNum estimateDenom h
  = (Ok 0, h).
Proof.
  intros Hn Hd Hmid Hclosed.
  rewrite (ExtrapolatedCumSumOfRatio_run h 0 relativeStart
             estimateNum estimateDenom num denom Hn Hd).
  f_equal. unfold cumSumOfRatio.
  assert (0 < ExtrapolatedCumSumRatioEpsilon) as Heps by reflexivity.
  destruct (Z.gtb_spec (squaredVelocity denom)
              ExtrapolatedCumSumRatioEpsilon) as [Hgt|Hle].
  - destruct (Hclosed Hgt) as [Hone Hrep].
    unfold closedForm. rewrite Z.add_0_r.
    rewrite (ln_ge_one_value _ Hone Hrep). cbn [rbind].
    unfold toQ128. rewrite Z.sub_diag.
    replace (VelocityEstimate denom * (PositionEstimate num * 0))
      with 0 by ring.
    replace (VelocityEstimate num
             * (PositionEstimate denom * 0
                + VelocityEstimate denom * (0 * 2 ^ 128)))
      with 0 by ring.
    rewrite Z.div_0_l by lia.
    rewrite Div_pos by lia. reflexivity.
  - unfold midpointRule, toQ128. rewrite Z.mul_0_l, Z.mul_0_r.
    unfold big.Div.
    destruct (Z.eqb_spec (PositionEstimate denom) 0) as [H0|_];
      [now elim (Hmid Hle)|].
    rewrite Z.div_0_l by lia. cbn [rbind]. unfold rescale.
    now rewrite Z.mul_0_r, Z.div_0_l by lia.
Qed.

Lemma ExtrapolatedCumSumOfRatio_empty_interval_witness :
  ExtrapolatedCumSumOfRatio 0 3 0%nat 0%nat exampleStore
  = (Ok 0, exampleStore).
Proof.
  apply (ExtrapolatedCumSumOfRatio_empty_interval exampleStore 3 0%nat 0%nat
           {| PositionEstimate := 5 * 2 ^ 128;
              VelocityEstimate := 3 * 2 ^ 127 |}
           {| PositionEstimate := 5 * 2 ^ 128;
              VelocityEstimate := 3 * 2 ^ 127 |});
    [reflexivity|reflexivity| |].
  - intros _. vm_compute. discriminate.
  - intros _. split; vm_compute; [discriminate|reflexivity].
Defined.

(** X12: a numerator that is zero, in position and in velocity, gives a
    cumulative sum of zero in both regimes, whenever the call can return. *)
Theorem ExtrapolatedCumSumOfRatio_zero_numerator (h : store)
    (delta relativeStart : Z) (estimateNum estimateDenom : loc)
    (num denom : FilterEstimate) :
  h !! estimateNum = Some num ->
  h !! estimateDenom = Some denom ->
  PositionEstimate num = 0 -> VelocityEstimate num = 0 ->
  (squaredVelocity denom <= ExtrapolatedCumSumRatioEpsilon ->
   PositionEstimate denom <> 0) ->
  (ExtrapolatedCumSumRatioEpsilon < squaredVelocity denom ->
   (2 ^ 128 <= trajectory denom relativeStart
    /\ representable (trajectory denom relativeStart))
   /\ (2 ^ 128 <= trajectory denom (relativeStart + delta)
       /\ representable (trajectory denom (relativeStart + delta)))) ->
  ExtrapolatedCumSumOfRatio delta relativeStart estimateNum estimateDenom h
  = (Ok 0, h).
Proof.
  intros Hn Hd Hp Hv Hmid Hclosed.
  rewrite (ExtrapolatedCumSumOfRatio_run h delta relativeStart
             estimateNum estimateDenom num denom Hn Hd).
  f_equal. unfold cumSumOfRatio.
  assert (0 < ExtrapolatedCumSumRatioEpsilon) as Heps by reflexivity.
  destruct (Z.gtb_spec (squaredVelocity denom)
              ExtrapolatedCumSumRatioEpsilon) as [Hgt|Hle].
  - destruct (Hclosed Hgt) as [[Ha Hra] [Hb Hrb]].
    unfold closedForm.
    rewrite (ln_ge_one_value _ Ha Hra), (ln_ge_one_value _ Hb Hrb).
    cbn [rbind]. rewrite Hp, Hv, !Z.mul_0_l, Z.mul_0_r.
    rewrite Z.div_0_l by lia.
    rewrite Div_pos by lia. reflexivity.
  - unfold midpointRule. rewrite Hp, Hv.
    replace ((0 + rescale (0 * midpoint delta relativeStart)) * toQ128 delta)
      with 0 by (rewrite Z.mul_0_l; reflexivity).
    unfold big.Div.
    destruct (Z.eqb_spec (PositionEstimate denom) 0) as [H0|_];
      [now elim (Hmid Hle)|].
    cbn [rbind]. unfold rescale. now rewrite Z.mul_0_r.
Qed.

Lemma ExtrapolatedCumSumOfRatio_zero_numerator_witness :
  ExtrapolatedCumSumOfRatio 10 0 1%nat 0%nat
    (exampleStore ++ [ {| PositionEstimate := 0; VelocityEstimate := 0 |} ])
  = (Ok 0,
     exampleStore ++ [ {| PositionEstimate := 0; VelocityEstimate := 0 |} ]).
Proof.
  apply (ExtrapolatedCumSumOfRatio_zero_numerator
           (exampleStore
            ++ [ {| PositionEstimate := 0; VelocityEstimate := 0 |} ])
           10 0 1%nat 0%nat
           {| PositionEstimate := 0; VelocityEstimate := 0 |}
           {| PositionEstimate := 5 * 2 ^ 128;
              VelocityEstimate := 3 * 2 ^ 127 |});
    [reflexivity|reflexivity|reflexivity|reflexivity| |].
  - intros _. vm_compute. discriminate.
  - intros _. repeat split; vm_compute; (discriminate || reflexivity).
Defined.

(** X13: in the midpoint regime, with a numerator that does not move and a
    positive denominator position, the cumulative sum is the length of the
    interval times the ratio of the two positions, rounded down; for equal
    positions it is the length of the interval. *)
Theorem ExtrapolatedCumSumOfRatio_stationary (h : store)
    (delta relativeStart : Z) (estimateNum estimateDenom : loc)
    (num denom : FilterEstimate) :
  h !! estimateNum = Some num ->
  h !! estimateDenom = Some denom ->
  VelocityEstimate num = 0 ->
  squaredVelocity denom <= ExtrapolatedCumSumRatioEpsilon ->
  0 < PositionEstimate denom ->
  ExtrapolatedCumSumOfRatio delta relativeStart estimateNum estimateDenom h
  = (Ok (delta * PositionEstimate num / PositionEstimate denom), h)
  /\ (PositionEstimate num = PositionEstimate denom ->
      ExtrapolatedCumSumOfRatio delta relativeStart
        estimateNum estimateDenom h = (Ok delta, h)).
Proof.
  intros Hn Hd Hv Hle Hp.
  assert (ExtrapolatedCumSumOfRatio delta relativeStart
            estimateNum estimateDenom h
          = (Ok (delta * PositionEstimate num / PositionEstimate denom), h))
    as Hres.
  { rewrite (ExtrapolatedCumSumOfRatio_run h delta relativeStart
               estimateNum estimateDenom num denom Hn Hd).
    f_equal. unfold cumSumOfRatio.
    destruct (Z.gtb_spec (squaredVelocity denom)
                ExtrapolatedCumSumRatioEpsilon) as [Hgt|_]; [lia|].
    unfold midpointRule. rewrite Hv.
    replace (PositionEstimate num
             + rescale (0 * midpoint delta relativeStart))
      with (PositionEstimate num)
      by (rewrite Z.mul_0_l; unfold rescale;
          rewrite (Z.div_0_l (2 ^ 128)) by lia; ring).
    rewrite Div_pos by assumption. cbn [rbind]. f_equal.
    unfold rescale, toQ128.
    rewrite Z.div_div by lia.
    replace (PositionEstimate num * (delta * 2 ^ 128))
      with (delta * PositionEstimate num * 2 ^ 128) by ring.
    apply Z.div_mul_cancel_r; lia. }
  split; [exact Hres|].
  intros Heq. rewrite Hres, Heq. now rewrite Z.div_mul by lia.
Qed.

Lemma ExtrapolatedCumSumOfRatio_stationary_witness :
  ExtrapolatedCumSumOfRatio 10 4 0%nat 0%nat
    [ {| PositionEstimate := 5 * 2 ^ 128; VelocityEstimate := 0 |} ]
  = (Ok 10, [ {| PositionEstimate := 5 * 2 ^ 128; VelocityEstimate := 0 |} ]).
Proof.
  apply (ExtrapolatedCumSumOfRatio_stationary
           [ {| PositionEstimate := 5 * 2 ^ 128; VelocityEstimate := 0 |} ]
           10 4 0%nat 0%nat
           {| PositionEstimate := 5 * 2 ^ 128; VelocityEstimate := 0 |}
           {| PositionEstimate := 5 * 2 ^ 128; VelocityEstimate := 0 |});
    [reflexivity|reflexivity|reflexivity| | |reflexivity].
  - vm_compute. discriminate.
  - vm_compute. reflexivity.
Defined.

(** ** [ln] and [lnBetweenOneAndTwo] *)

(** X14: on arguments at least one, a multiplication by a power of two adds
    that many times [ln2], exactly. *)
Theorem ln_scaling (z j : Z) :
  2 ^ 128 <= z -> 0 <= j ->
  representable (z * 2 ^ j) ->
  exists v, ln z = Ok v /\ ln (z * 2 ^ j) = Ok (v + j * ln2).
Proof.
  intros Hz Hj Hrep.
  assert (0 < 2 ^ j) as Hpow by (apply Z.pow_pos_nonneg; lia).
  assert (Z.log2 (z * 2 ^ j) = j + Z.log2 z) as Hlog
    by (apply Z.log2_mul_pow2; lia).
  assert (2 ^ 128 <= z * 2 ^ j) as Hz' by nia.
  assert (representable z) as Hrepz.
  { apply representable_pos; [lia|].
    apply representable_pos in Hrep; lia. }
  pose proof (lnExponent_nonneg z Hz) as Hk.
  assert (lnExponent (z * 2 ^ j) = lnExponent z + j) as Hk2
    by (unfold lnExponent; lia).
  assert (lnMantissa (z * 2 ^ j) = lnMantissa z) as Hm.
  { unfold lnMantissa. rewrite Hk2, Z.pow_add_r by lia.
    apply Z.div_mul_cancel_r; [apply Z.pow_nonzero|]; lia. }
  rewrite (ln_ge_one_value z Hz Hrepz), (ln_ge_one_value _ Hz' Hrep).
  rewrite Hk2, Hm. eexists. split; [reflexivity|]. apply f_equal. ring.
Qed.

Lemma ln_scaling_witness :
  exists v, ln (3 * 2 ^ 127) = Ok v
            /\ ln (3 * 2 ^ 127 * 2 ^ 40) = Ok (v + 40 * ln2).
Proof.
  apply (ln_scaling (3 * 2 ^ 127) 40); [lia|lia|vm_compute; reflexivity].
Defined.

Lemma lnValue_one : lnValue (2 ^ 128) = 878.
Proof. vm_compute. reflexivity. Qed.

Lemma lnValue_two :
  lnValue (2 ^ 129) = 235865763225513264037066895253484070263.
Proof. vm_compute. reflexivity. Qed.

(** X15: on arguments at least one, the result lies strictly between
    [k * ln2] and [(k + 1) * ln2], where [k] is the position of the leading
    bit above the binary point; in particular it is positive, also at one,
    where it is 878 and not zero. *)
Theorem ln_bracket (z : Z) :
  2 ^ 128 <= z -> representable z ->
  exists v,
    ln z = Ok v
    /\ lnExponent z * ln2 + 878 <= v < (lnExponent z + 1) * ln2
    /\ 0 < v.
Proof.
  intros Hz Hrep.
  rewrite (ln_ge_one_value z Hz Hrep). eexists. split; [reflexivity|].
  pose proof (lnMantissa_range z Hz) as [Hlo Hhi].
  pose proof (lnExponent_nonneg z Hz) as Hk.
  pose proof (lnValue_monotone (2 ^ 128) (lnMantissa z)
                ltac:(lia) Hlo ltac:(lia)) as H1.
  pose proof (lnValue_monotone (lnMantissa z) (2 ^ 129)
                Hlo ltac:(lia) ltac:(lia)) as H2.
  rewrite lnValue_one in H1. rewrite lnValue_two in H2.
  assert (0 <= lnExponent z * ln2)
    by (apply Z.mul_nonneg_nonneg; [lia|unfold ln2; lia]).
  unfold ln2 in *. lia.
Qed.

Lemma ln_bracket_witness :
  exists v,
    ln (2 ^ 128) = Ok v
    /\ lnExponent (2 ^ 128) * ln2 + 878 <= v
       < (lnExponent (2 ^ 128) + 1) * ln2
    /\ 0 < v.
Proof.
  apply (ln_bracket (2 ^ 128)); [lia|vm_compute; reflexivity].
Defined.

(** X16: on arguments at least one, [ln] looks at the leading 129 bits
    only: clearing the bits below them does not change the result. *)
Theorem ln_ignores_low_bits (z : Z) :
  2 ^ 128 <= z -> representable z ->
  ln (z - z mod 2 ^ lnExponent z) = ln z.
Proof.
  intros Hz Hrep.
  pose proof (lnExponent_nonneg z Hz) as Hk.
  pose proof (lnMantissa_range z Hz) as [Hlo Hhi].
  assert (0 < 2 ^ lnExponent z) as Hpow by (apply Z.pow_pos_nonneg; lia).
  assert (z - z mod 2 ^ lnExponent z = lnMantissa z * 2 ^ lnExponent z)
    as Hclear.
  { unfold lnMantissa.
    pose proof (Z.div_mod z (2 ^ lnExponent z) ltac:(lia)). lia. }
  rewrite Hclear.
  set (m := lnMantissa z) in *. set (k := lnExponent z) in *.
  assert (Z.log2 (m * 2 ^ k) = k + Z.log2 m) as Hlog
    by (apply Z.log2_mul_pow2; lia).
  assert (Z.log2 m = 128) as Hlogm.
  { apply Z.log2_unique; [lia|]. change (2 ^ Z.succ 128) with (2 ^ 129). lia. }
  assert (2 ^ 128 <= m * 2 ^ k) as Hz' by nia.
  assert (lnExponent (m * 2 ^ k) = k) as Hk'
    by (unfold lnExponent; lia).
  assert (representable (m * 2 ^ k)) as Hrep'.
  { apply representable_pos; [lia|].
    apply representable_pos in Hrep; [|lia].
    unfold k, lnExponent in *. lia. }
  assert (lnMantissa (m * 2 ^ k) = m) as Hm'.
  { unfold lnMantissa. rewrite Hk'. apply Z.div_mul. lia. }
  rewrite (ln_ge_one_value _ Hz' Hrep'), (ln_ge_one_value z Hz Hrep).
  now rewrite Hk', Hm'.
Qed.

Lemma ln_ignores_low_bits_witness :
  ln (2 ^ 140 + 4095 - (2 ^ 140 + 4095) mod 2 ^ lnExponent (2 ^ 140 + 4095))
  = ln (2 ^ 140 + 4095).
Proof.
  apply (ln_ignores_low_bits (2 ^ 140 + 4095));
    [lia|vm_compute; reflexivity].
Defined.

(** X17: [ln] does not reject an argument that is zero or negative: on
    zero, and on every argument of magnitude at least one, of either sign,
    it returns a number; on zero that number is [- 129 * ln2] plus the
    constant coefficient of the numerator polynomial. *)
Theorem ln_outside_domain (z : Z) :
  z <= - 2 ^ 128 \/ z = 0 \/ 2 ^ 128 <= z ->
  representable z ->
  (exists v, ln z = Ok v)
  /\ ln 0 = Ok (- 129 * ln2 - 1563932590352680681114104005183375350999).
Proof.
  intros Hz Hrep. split; [|exact ln_zero].
  apply ln_returns; [exact Hrep|].
  unfold lnShiftFits. lia.
Qed.

Lemma ln_outside_domain_witness :
  exists v, ln (- 2 ^ 130) = Ok v.
Proof.
  apply (ln_outside_domain (- 2 ^ 130)); [left; lia|vm_compute; reflexivity].
Defined.

(** X18: on its range of use, from one to two, [lnBetweenOneAndTwo]
    returns, does not decrease, and stays between its value 878 at one and
    its value at two, which is below [ln2]. *)
Theorem lnBetweenOneAndTwo_monotone (a b : Z) :
  2 ^ 128 <= a -> a <= b -> b <= 2 ^ 129 ->
  exists va vb,
    lnBetweenOneAndTwo a = Ok va
    /\ lnBetweenOneAndTwo b = Ok vb
    /\ 878 <= va /\ va <= vb
    /\ vb <= 235865763225513264037066895253484070263
    /\ 235865763225513264037066895253484070263 < ln2.
Proof.
  intros Ha Hab Hb.
  rewrite (lnBetweenOneAndTwo_nonneg_arg a), (lnBetweenOneAndTwo_nonneg_arg b)
    by lia.
  do 2 eexists. split; [reflexivity|]. split; [reflexivity|].
  pose proof (lnValue_monotone (2 ^ 128) a ltac:(lia) Ha ltac:(lia)) as H1.
  pose proof (lnValue_monotone a b Ha Hab Hb) as H2.
  pose proof (lnValue_monotone b (2 ^ 129) ltac:(lia) Hb ltac:(lia)) as H3.
  rewrite lnValue_one in H1. rewrite lnValue_two in H3.
  repeat split; try assumption.
Qed.

Lemma lnBetweenOneAndTwo_monotone_witness :
  exists va vb,
    lnBetweenOneAndTwo (2 ^ 128 + 1) = Ok va
    /\ lnBetweenOneAndTwo (3 * 2 ^ 127) = Ok vb
    /\ 878 <= va /\ va <= vb
    /\ vb <= 235865763225513264037066895253484070263
    /\ 235865763225513264037066895253484070263 < ln2.
Proof.
  apply (lnBetweenOneAndTwo_monotone (2 ^ 128 + 1) (3 * 2 ^ 127)); lia.
Defined.

(** ** [fixedHasher] *)

Lemma fixedHasher_eq (target : Z) (input : list Z) :
  fixedHasher target input = bigEndianUint64 target ++ replicate 24 0.
Proof. reflexivity. Qed.

Lemma bigEndianUint64_read (target : Z) :
  0 <= target < 2 ^ 64 -> readBigEndian (bigEndianUint64 target) = target.
Proof.
  intros Ht. unfold bigEndianUint64, readBigEndian.
  cbn [map fold_left].
  change 255 with (Z.ones 8).
  rewrite !Z.land_ones, !Z.shiftr_div_pow2 by lia.
  change (8 * (7 - 0)) with 56. change (8 * (7 - 1)) with 48.
  change (8 * (7 - 2)) with 40. change (8 * (7 - 3)) with 32.
  change (8 * (7 - 4)) with 24. change (8 * (7 - 5)) with 16.
  change (8 * (7 - 6)) with 8. change (8 * (7 - 7)) with 0.
  Z.div_mod_to_equations. lia.
Qed.

Lemma land_255_range (x : Z) : 0 <= Z.land x 255 < 256.
Proof.
  change 255 with (Z.ones 8). rewrite Z.land_ones by lia.
  apply Z.mod_pos_bound. lia.
Qed.

(** X19: the digest of [fixedHasher] has 32 bytes; its first eight bytes,
    read most significant first, are the target; the other 24 are zero. *)
Theorem fixedHasher_digest (target : Z) (input : list Z) :
  0 <= target < 2 ^ 64 ->
  length (fixedHasher target input) = 32%nat
  /\ readBigEndian (take 8 (fixedHasher target input)) = target
  /\ drop 8 (fixedHasher target input) = replicate 24 0
  /\ Forall (fun b => 0 <= b < 256) (fixedHasher target input).
Proof.
  intros Ht. rewrite fixedHasher_eq.
  split; [reflexivity|].
  split; [exact (bigEndianUint64_read target Ht)|].
  split; [reflexivity|].
  apply Forall_app. split.
  - unfold bigEndianUint64. cbn [map].
    repeat (apply Forall_cons; split; [apply land_255_range|]).
    apply Forall_nil. exact I.
  - apply Forall_replicate. lia.
Qed.

Lemma fixedHasher_digest_witness :
  readBigEndian (take 8 (fixedHasher 258 [1; 2; 3])) = 258.
Proof.
  apply (fixedHasher_digest 258 [1; 2; 3]). lia.
Defined.

(** X20: [fixedHasher] ignores what it is given to hash, and two targets
    with the same digest are the same target. *)
Theorem fixedHasher_injective (t1 t2 : Z) (input1 input2 : list Z) :
  0 <= t1 < 2 ^ 64 -> 0 <= t2 < 2 ^ 64 ->
  fixedHasher t1 input1 = fixedHasher t1 input2
  /\ (fixedHasher t1 input1 = fixedHasher t2 input2 -> t1 = t2).
Proof.
  intros H1 H2. split; [reflexivity|].
  rewrite !fixedHasher_eq. intros Heq.
  apply (f_equal (take 8)) in Heq.
  change (bigEndianUint64 t1 = bigEndianUint64 t2) in Heq.
  rewrite <- (bigEndianUint64_read t1 H1), <- (bigEndianUint64_read t2 H2).
  now rewrite Heq.
Qed.

Lemma fixedHasher_injective_witness :
  fixedHasher 7 [1] = fixedHasher 7 [2; 3].
Proof.
  apply (fixedHasher_injective 7 7 [1] [2; 3]); lia.
Defined.
